(** * Label realignment and metric filtering of the token-classification notebook

    A shallow embedding of the two pieces of custom logic in
    [3c_ft_hf_token_classification.ipynb]:

    - [preprocess_dataset], whose inner loop turns word-level NER tags and the
      tokenizer's token-to-word map into per-token labels;
    - [compute_metrics], which drops the ignored positions of the predicted
      and the true label sequences before they are scored.

    Python integers are unbounded, so word indices and label ids are [Z].
    A token-to-word map is a [list (option Z)], [None] being Python's [None].
    Python exceptions are modelled by an error monad. *)

From stdpp Require Import base option list gmap strings.
From Stdlib Require Import ZArith Lia.

Local Open Scope Z_scope.

(** ** Python exceptions as an error monad *)

Inductive exn : Type :=
  | IndexError
  | KeyError.

Inductive result (A : Type) : Type :=
  | Ok (a : A)
  | Raise (e : exn).

Arguments Ok {A} a.
Arguments Raise {A} e.

#[global] Instance result_ret : MRet result := @Ok.

#[global] Instance result_bind : MBind result :=
  fun A B f m => match m with Ok a => f a | Raise e => Raise e end.

(** [for x in xs: body], the body acting on the local variables [S]. The
    first exception leaves the loop. *)
Fixpoint for_each {S A : Type} (body : S -> A -> result S) (s : S) (xs : list A)
  : result S :=
  match xs with
  | [] => Ok s
  | x :: xs' => s' ← body s x; for_each body s' xs'
  end.

(** ** Python containers *)

(** The position a Python list of length [n] reads for the subscript [i]:
    [i] itself when [0 <= i < n], [n + i] when [-n <= i < 0], none otherwise. *)
Definition list_position (n : nat) (i : Z) : option nat :=
  if decide (0 <= i) then
    if decide (i < Z.of_nat n) then Some (Z.to_nat i) else None
  else
    if decide (- Z.of_nat n <= i) then Some (Z.to_nat (Z.of_nat n + i)) else None.

(** [l[i]] on a Python list. *)
Definition list_getitem {A : Type} (l : list A) (i : Z) : result A :=
  match list_position (length l) i with
  | Some k => match l !! k with Some x => Ok x | None => Raise IndexError end
  | None => Raise IndexError
  end.

(** [d[k]] on a Python dict. *)
Definition dict_getitem {V : Type} (d : gmap Z V) (k : Z) : result V :=
  match d !! k with
  | Some v => Ok v
  | None => Raise KeyError
  end.

(** [enumerate(xs)]. *)
Fixpoint enumerate_from {A : Type} (i : nat) (xs : list A) : list (nat * A) :=
  match xs with
  | [] => []
  | x :: xs' => (i, x) :: enumerate_from (S i) xs'
  end.

Definition enumerate {A : Type} (xs : list A) : list (nat * A) :=
  enumerate_from 0 xs.

(** ** [preprocess_dataset] *)

(** The literal [-100] the loop appends for a position without a label. *)
Definition IGNORE : Z := -100.

(** The local variables of [preprocess_dataset] that the two loops assign. *)
Record locals : Type := Locals {
  prev_idx : option Z;
  single_new_ner_tag : list Z;
  all_new_ner_tags : list (list Z)
}.

(** The value appended by one iteration of the inner loop: the three branches
    of the [if]/[elif]/[else]. [prev_idx != word_idx] holds in particular when
    [prev_idx] is [None] and [word_idx] is an integer. *)
Definition token_label (ner_tag : list Z) (prev : option Z) (word_idx : option Z)
  : result Z :=
  match word_idx with
  | None => Ok IGNORE
  | Some w =>
      if decide (prev ≠ Some w) then list_getitem ner_tag w
      else Ok IGNORE
  end.

(** Body of [for word_idx in word_ids]: append, then [prev_idx = word_idx]. *)
Definition realign_step (ner_tag : list Z) (st : locals) (word_idx : option Z)
  : result locals :=
  y ← token_label ner_tag (prev_idx st) word_idx;
  Ok {| prev_idx := word_idx;
        single_new_ner_tag := single_new_ner_tag st ++ [y];
        all_new_ner_tags := all_new_ner_tags st |}.

(** Body of [for ner_idx, ner_tag in enumerate(ner_tags)]. [word_ids] stands
    for [tokenized_info.word_ids(batch_index=...)] of the external tokenizer.
    [single_new_ner_tag = []] binds a fresh list, so the lists appended to
    [all_new_ner_tags] earlier are not touched again. *)
Definition example_step (word_ids : nat -> list (option Z)) (st : locals)
    (p : nat * list Z) : result locals :=
  let ner_idx := p.1 in
  let ner_tag := p.2 in
  let st0 := {| prev_idx := None;
                single_new_ner_tag := [];
                all_new_ner_tags := all_new_ner_tags st |} in
  st1 ← for_each (realign_step ner_tag) st0 (word_ids ner_idx);
  Ok {| prev_idx := prev_idx st1;
        single_new_ner_tag := single_new_ner_tag st1;
        all_new_ner_tags := all_new_ner_tags st1 ++ [single_new_ner_tag st1] |}.

(** The locals on entry of [preprocess_dataset]: [all_new_ner_tags = []];
    [prev_idx] and [single_new_ner_tag] are not bound yet and are assigned
    before their first use. *)
Definition entry_locals : locals :=
  {| prev_idx := None; single_new_ner_tag := []; all_new_ner_tags := [] |}.

(** [preprocess_dataset], as far as [tokenized_info['labels']] goes. *)
Definition preprocess_dataset (word_ids : nat -> list (option Z))
    (ner_tags : list (list Z)) : result (list (list Z)) :=
  st ← for_each (example_step word_ids) entry_locals (enumerate ner_tags);
  Ok (all_new_ner_tags st).

(** The realigner: the inner loop of [preprocess_dataset] on one example,
    from [prev_idx = None] and [single_new_ner_tag = []] to the list that is
    appended to [all_new_ner_tags]. *)
Definition realign (L : list Z) (M : list (option Z)) : result (list Z) :=
  st ← for_each (realign_step L) entry_locals M;
  Ok (single_new_ner_tag st).

(** ** [compute_metrics] *)

Section Metrics.

Context {Probs Scores : Type}.
(** [np.argmax(probs, axis=2)] and [seqeval.compute] are library calls. *)
Variable np_argmax : Probs -> list (list Z).
Variable seqeval_compute :
  list (list string) -> list (list string) -> result Scores.
Variable id2label : gmap Z string.

(** [[[id2label[l] for l in label if l != -100] for label in labels]] *)
Definition true_labels (labels : list (list Z)) : result (list (list string)) :=
  mapM (fun label =>
          mapM (fun l => dict_getitem id2label l)
               (filter (fun l => l ≠ -100) label))
       labels.

(** [[[id2label[p] for (p,l) in zip(prediction, label) if l != -100]
      for prediction, label in zip(predictions, labels)]] *)
Definition true_predictions (predictions labels : list (list Z))
  : result (list (list string)) :=
  mapM (fun pl : list Z * list Z =>
          mapM (fun q : Z * Z => dict_getitem id2label q.1)
               (filter (fun q : Z * Z => q.2 ≠ -100) (zip pl.1 pl.2)))
       (zip predictions labels).

(** [compute_metrics]; the returned dict holds four entries of what
    [seqeval.compute] gives. *)
Definition compute_metrics (probs : Probs) (labels : list (list Z))
  : result Scores :=
  let predictions := np_argmax probs in
  tl ← true_labels labels;
  tp ← true_predictions predictions labels;
  seqeval_compute tp tl.

End Metrics.

(** ** Auxiliary definitions for the statements *)

(** The labels the inner loop appends for the map [M] when [prev_idx] holds
    [prev] on entry, as a recursion on [M] ([for_each_realign_step] relates it
    to the loop). *)
Fixpoint labels_from (L : list Z) (prev : option Z) (M : list (option Z))
  : result (list Z) :=
  match M with
  | [] => Ok []
  | x :: M' =>
      y ← token_label L prev x;
      ys ← labels_from L x M';
      Ok (y :: ys)
  end.

(** The value of [prev_idx] once the loop has run over [M]. *)
Definition prev_after (prev : option Z) (M : list (option Z)) : option Z :=
  default prev (last M).

(** A map entry is valid for [L]: the sentinel, or an index into [L]. *)
Definition valid_entry (L : list Z) (x : option Z) : Prop :=
  match x with
  | None => True
  | Some w => 0 <= w < Z.of_nat (length L)
  end.

(** A map entry is accepted by Python's subscript on [L]: the sentinel, or an
    integer of [[-len(L), len(L))]. *)
Definition subscriptable (L : list Z) (x : option Z) : Prop :=
  match x with
  | None => True
  | Some w => - Z.of_nat (length L) <= w < Z.of_nat (length L)
  end.

#[global] Instance subscriptable_dec (L : list Z) (x : option Z) :
  Decision (subscriptable L x).
Proof. destruct x; simpl; apply _. Defined.

(** The value [prev_idx] holds when the loop reaches position [t] of [M],
    having been entered with [prev]: the entry at [t - 1]. *)
Definition prev_idx_at (prev : option Z) (M : list (option Z)) (t : nat)
  : option Z :=
  match t with
  | O => prev
  | S t' => default None (M !! t')
  end.

(** The positions of [label] that do not hold [-100], in increasing order,
    the first entry of [label] counting as position [t]. *)
Fixpoint kept_from (t : nat) (label : list Z) : list nat :=
  match label with
  | [] => []
  | x :: label' =>
      if decide (x ≠ IGNORE) then t :: kept_from (S t) label'
      else kept_from (S t) label'
  end.

Definition kept_positions (label : list Z) : list nat := kept_from 0 label.

(** ** The label vocabulary

    A Python dict keeps its items in insertion order, and the comprehension
    for [label2id] iterates over [id2label.items()]: the dicts built by the
    notebook are modelled as the list of their items in that order. *)

(** [d[k] = v]: an existing key keeps its place and takes the new value, a
    new key goes to the end. *)
Fixpoint odict_setitem {K V : Type} `{EqDecision K} (k : K) (v : V)
    (d : list (K * V)) : list (K * V) :=
  match d with
  | [] => [(k, v)]
  | kv :: d' =>
      if decide (kv.1 = k) then (kv.1, v) :: d'
      else kv :: odict_setitem k v d'
  end.

(** [d[k]]. *)
Fixpoint odict_getitem {K V : Type} `{EqDecision K} (d : list (K * V)) (k : K)
  : result V :=
  match d with
  | [] => Raise KeyError
  | kv :: d' => if decide (kv.1 = k) then Ok kv.2 else odict_getitem d' k
  end.

(** [{k: v for k, v in items}]. *)
Definition dict_comprehension {K V : Type} `{EqDecision K}
    (items : list (K * V)) : list (K * V) :=
  foldl (fun d kv => odict_setitem kv.1 kv.2 d) [] items.

(** The dict as [compute_metrics] reads it. *)
Definition odict_view {V : Type} (d : list (Z * V)) : gmap Z V :=
  list_to_map d.

Module Vocabulary.

(** [id2label = {k:v for k,v in enumerate(names)}], [names] being
    [dataset['train'].features['ner_tags'].feature.names]. *)
Definition id2label (names : list string) : list (Z * string) :=
  dict_comprehension
    (map (fun kv : nat * string => (Z.of_nat kv.1, kv.2)) (enumerate names)).

(** [label2id = {v:k for k,v in id2label.items()}]. *)
Definition label2id (names : list string) : list (string * Z) :=
  dict_comprehension
    (map (fun kv : Z * string => (kv.2, kv.1)) (id2label names)).

End Vocabulary.

(** ** Inference, method 2 *)

(** [predictions = [label_map[i] for i in predictions_label_ids[0]]] *)
Definition inference_predictions (label_map : gmap Z string)
    (predictions_label_ids : list (list Z)) : result (list string) :=
  row ← list_getitem predictions_label_ids 0;
  mapM (fun i => dict_getitem label_map i) row.

(** ** Maps of a contiguous tokenizer *)

(** The map of the words [w], [w + 1], ... in order: for each word, given as
    [(g, n)], [g] sentinels and then [S n] tokens of the word. *)
Fixpoint contiguous_map (w : nat) (segs : list (nat * nat))
  : list (option Z) :=
  match segs with
  | [] => []
  | gn :: segs' =>
      replicate gn.1 None ++ replicate (S gn.2) (Some (Z.of_nat w)) ++
      contiguous_map (S w) segs'
  end.

(** [prev_idx] holds no word index from [w] on. *)
Definition prev_below (w : nat) (prev : option Z) : Prop :=
  match prev with
  | None => True
  | Some z => z < Z.of_nat w
  end.

(** ** The error monad *)

Lemma bind_Ok {A B : Type} (m : result A) (f : A -> result B) (b : B) :
  m ≫= f = Ok b <-> exists a, m = Ok a /\ f a = Ok b.
Proof.
  destruct m as [a|e]; simpl.
  - split; [eauto | intros (a' & [= <-] & ?); done].
  - split; [done | intros (a' & [=] & _)].
Qed.

(** ** Python subscripts *)

Lemma list_getitem_nonneg {A : Type} (l : list A) (i : Z) :
  0 <= i < Z.of_nat (length l) ->
  exists x, l !! Z.to_nat i = Some x /\ list_getitem l i = Ok x.
Proof.
  intros Hi. unfold list_getitem, list_position.
  rewrite !decide_True by lia.
  destruct (lookup_lt_is_Some_2 l (Z.to_nat i)) as [x Hx]; [lia|].
  exists x. by rewrite Hx.
Qed.

Lemma list_getitem_negative {A : Type} (l : list A) (i : Z) :
  - Z.of_nat (length l) <= i < 0 ->
  exists x, l !! Z.to_nat (Z.of_nat (length l) + i) = Some x /\
            list_getitem l i = Ok x.
Proof.
  intros Hi. unfold list_getitem, list_position.
  rewrite decide_False by lia. rewrite decide_True by lia.
  destruct (lookup_lt_is_Some_2 l (Z.to_nat (Z.of_nat (length l) + i)))
    as [x Hx]; [lia|].
  exists x. by rewrite Hx.
Qed.

Lemma list_getitem_outside {A : Type} (l : list A) (i : Z) :
  ~ (- Z.of_nat (length l) <= i < Z.of_nat (length l)) ->
  list_getitem l i = Raise IndexError.
Proof.
  intros Hi. unfold list_getitem, list_position.
  destruct (decide (0 <= i)).
  - by rewrite decide_False by lia.
  - by rewrite decide_False by lia.
Qed.

(** ** One iteration *)

Lemma token_label_sentinel (L : list Z) (prev : option Z) :
  token_label L prev None = Ok IGNORE.
Proof. reflexivity. Qed.

Lemma token_label_repeat (L : list Z) (w : Z) :
  token_label L (Some w) (Some w) = Ok IGNORE.
Proof. simpl. by rewrite decide_False by (intros H; by apply H). Qed.

Lemma token_label_first (L : list Z) (prev : option Z) (w : Z) :
  prev ≠ Some w -> token_label L prev (Some w) = list_getitem L w.
Proof. intros H. simpl. by rewrite decide_True. Qed.

Lemma token_label_subscriptable (L : list Z) (prev x : option Z) :
  subscriptable L x -> exists y, token_label L prev x = Ok y.
Proof.
  destruct x as [w|]; simpl; [|eauto].
  intros Hw. destruct (decide (prev ≠ Some w)); [|eauto].
  destruct (decide (0 <= w)).
  - destruct (list_getitem_nonneg L w) as (y & _ & ->); [lia | eauto].
  - destruct (list_getitem_negative L w) as (y & _ & ->); [lia | eauto].
Qed.

Lemma valid_entry_subscriptable (L : list Z) (x : option Z) :
  valid_entry L x -> subscriptable L x.
Proof. destruct x; simpl; lia. Qed.

(** ** The inner loop *)

Lemma prev_after_nil (prev : option Z) : prev_after prev [] = prev.
Proof. reflexivity. Qed.

Lemma prev_after_cons (prev x : option Z) (M : list (option Z)) :
  prev_after prev (x :: M) = prev_after x M.
Proof. unfold prev_after. rewrite last_cons. by destruct (last M). Qed.

Lemma prev_after_snoc (prev x : option Z) (M : list (option Z)) :
  prev_after prev (M ++ [x]) = x.
Proof. unfold prev_after. by rewrite last_snoc. Qed.

Lemma realign_step_Ok (L : list Z) (st : locals) (x : option Z) (y : Z) :
  token_label L (prev_idx st) x = Ok y ->
  realign_step L st x =
  Ok {| prev_idx := x;
        single_new_ner_tag := single_new_ner_tag st ++ [y];
        all_new_ner_tags := all_new_ner_tags st |}.
Proof. intros H. unfold realign_step. by rewrite H. Qed.

Lemma realign_step_Raise (L : list Z) (st : locals) (x : option Z) (e : exn) :
  token_label L (prev_idx st) x = Raise e -> realign_step L st x = Raise e.
Proof. intros H. unfold realign_step. by rewrite H. Qed.

(** The loop appends [labels_from] to [single_new_ner_tag], leaves
    [all_new_ner_tags] alone and ends with the last entry in [prev_idx]. *)
Lemma for_each_realign_step (L : list Z) (M : list (option Z)) (st : locals) :
  for_each (realign_step L) st M =
  ys ← labels_from L (prev_idx st) M;
  Ok {| prev_idx := prev_after (prev_idx st) M;
        single_new_ner_tag := single_new_ner_tag st ++ ys;
        all_new_ner_tags := all_new_ner_tags st |}.
Proof.
  revert st. induction M as [|x M IH]; intros st; cbn [for_each labels_from].
  - rewrite prev_after_nil. simpl. rewrite app_nil_r. by destruct st.
  - destruct (token_label L (prev_idx st) x) as [y|e] eqn:Hy.
    + rewrite (realign_step_Ok _ _ _ _ Hy). simpl. rewrite IH. simpl.
      destruct (labels_from L x M) as [ys|e]; simpl; [|done].
      by rewrite prev_after_cons, <- app_assoc.
    + by rewrite (realign_step_Raise _ _ _ _ Hy).
Qed.

Lemma realign_labels_from (L : list Z) (M : list (option Z)) :
  realign L M = labels_from L None M.
Proof.
  unfold realign. rewrite for_each_realign_step. simpl.
  by destruct (labels_from L None M).
Qed.

Lemma labels_from_length (L : list Z) (prev : option Z) (M : list (option Z))
    (A : list Z) :
  labels_from L prev M = Ok A -> length A = length M.
Proof.
  revert prev A. induction M as [|x M IH]; intros prev A; simpl.
  - by intros [= <-].
  - intros (y & _ & (ys & Hys & [= <-])%bind_Ok)%bind_Ok.
    simpl. f_equal. by eapply IH.
Qed.

Lemma labels_from_subscriptable (L : list Z) (prev : option Z)
    (M : list (option Z)) :
  Forall (subscriptable L) M -> exists A, labels_from L prev M = Ok A.
Proof.
  intros HM. revert prev. induction HM as [|x M Hx _ IH]; intros prev; simpl.
  - eauto.
  - destruct (token_label_subscriptable L prev x Hx) as [y ->].
    destruct (IH x) as [ys ->]. simpl. eauto.
Qed.

Lemma labels_from_sentinels (L : list Z) (prev : option Z) (n : nat) :
  labels_from L prev (replicate n None) = Ok (replicate n IGNORE).
Proof.
  revert prev. induction n as [|n IH]; intros prev; simpl; [done|].
  by rewrite IH.
Qed.

(** Position by position: the label at [t] is [token_label] of the entry at
    [t] and of the entry just before it, nothing else of [M] matters. *)
Lemma labels_from_lookup (L : list Z) (prev : option Z) (M : list (option Z))
    (A : list Z) (t : nat) (x : option Z) :
  labels_from L prev M = Ok A ->
  M !! t = Some x ->
  exists y, A !! t = Some y /\ token_label L (prev_idx_at prev M t) x = Ok y.
Proof.
  revert prev A t. induction M as [|x0 M IH]; intros prev A t; [done|].
  simpl. intros (y0 & Hy0 & (ys & Hys & [= <-])%bind_Ok)%bind_Ok Ht.
  destruct t as [|t]; simpl in *.
  - injection Ht as <-. eauto.
  - destruct (IH _ _ _ Hys Ht) as (y & Hy & Hlab).
    exists y. split; [done|]. by destruct t.
Qed.

Lemma realign_lookup (L : list Z) (M : list (option Z)) (A : list Z) (t : nat)
    (x : option Z) :
  realign L M = Ok A ->
  M !! t = Some x ->
  exists y, A !! t = Some y /\ token_label L (prev_idx_at None M t) x = Ok y.
Proof. rewrite realign_labels_from. apply labels_from_lookup. Qed.

Lemma realign_length (L : list Z) (M : list (option Z)) (A : list Z) :
  realign L M = Ok A -> length A = length M.
Proof. rewrite realign_labels_from. apply labels_from_length. Qed.

Lemma realign_subscriptable (L : list Z) (M : list (option Z)) :
  Forall (subscriptable L) M -> exists A, realign L M = Ok A.
Proof. rewrite realign_labels_from. apply labels_from_subscriptable. Qed.

Lemma realign_valid (L : list Z) (M : list (option Z)) :
  Forall (valid_entry L) M -> exists A, realign L M = Ok A.
Proof.
  intros HM. apply realign_subscriptable.
  eapply Forall_impl; [exact HM|]. apply valid_entry_subscriptable.
Qed.

(** *** Positions inside [pre ++ replicate n x ++ post] *)

Lemma lookup_run (pre post : list (option Z)) (x : option Z) (n k : nat) :
  (k < n)%nat ->
  (pre ++ replicate n x ++ post) !! (length pre + k)%nat = Some x.
Proof.
  intros Hk. rewrite lookup_app_r by lia.
  replace (length pre + k - length pre)%nat with k by lia.
  rewrite lookup_app_l by (rewrite length_replicate; lia).
  by apply lookup_replicate_2.
Qed.

Lemma prev_idx_at_app (prev : option Z) (pre rest : list (option Z)) :
  prev_idx_at prev (pre ++ rest) (length pre) = prev_after prev pre.
Proof.
  destruct pre as [|a pre _] using rev_ind; [done|].
  rewrite prev_after_snoc, length_app, Nat.add_1_r. simpl.
  rewrite <- app_assoc. simpl. by rewrite list_lookup_middle.
Qed.

Lemma prev_after_last_ne (pre : list (option Z)) (w : Z) :
  last pre ≠ Some (Some w) -> prev_after None pre ≠ Some w.
Proof.
  unfold prev_after. destruct (last pre) as [a|]; simpl; [|done].
  intros H ->. by apply H.
Qed.

Lemma prev_idx_at_run (prev : option Z) (pre post : list (option Z))
    (x : option Z) (n k : nat) :
  (k < n)%nat ->
  prev_idx_at prev (pre ++ replicate n x ++ post) (length pre + S k) = x.
Proof.
  intros Hk. rewrite Nat.add_succ_r. simpl. by rewrite lookup_run.
Qed.

(** The labels of a run of [S n] copies of [w] that starts right after
    [pre]: the word's label, then [n] times [-100]. *)
Lemma realign_at_run (L : list Z) (pre post : list (option Z)) (w : Z) (n : nat)
    (A : list Z) :
  0 <= w < Z.of_nat (length L) ->
  last pre ≠ Some (Some w) ->
  realign L (pre ++ replicate (S n) (Some w) ++ post) = Ok A ->
  exists x, L !! Z.to_nat w = Some x /\
            A !! length pre = Some x /\
            forall k, (0 < k <= n)%nat ->
                      A !! (length pre + k)%nat = Some IGNORE.
Proof.
  intros Hw Hpre HA.
  destruct (list_getitem_nonneg L w Hw) as (x & Hx & Hget).
  exists x. split; [done|]. split.
  - destruct (realign_lookup _ _ _ (length pre) (Some w) HA) as (y & Hy & Hlab).
    { rewrite <- (Nat.add_0_r (length pre)). apply lookup_run. lia. }
    rewrite prev_idx_at_app, token_label_first in Hlab
      by by apply prev_after_last_ne.
    congruence.
  - intros k Hk. destruct k as [|k]; [lia|].
    destruct (realign_lookup _ _ _ (length pre + S k) (Some w) HA)
      as (y & Hy & Hlab).
    { apply lookup_run. lia. }
    rewrite prev_idx_at_run, token_label_repeat in Hlab by lia.
    congruence.
Qed.

Lemma valid_run_index (L : list Z) (pre post : list (option Z)) (w : Z)
    (n : nat) :
  Forall (valid_entry L) (pre ++ replicate (S n) (Some w) ++ post) ->
  0 <= w < Z.of_nat (length L).
Proof.
  rewrite !Forall_app. intros (_ & Hrun & _).
  by apply Forall_cons_1 in Hrun as [Hw _].
Qed.

(** ** The realigner on runs and sentinels *)

(** C1. In a map whose entries are the sentinel or indices into [L], take a
    maximal run of [S n] copies of the word index [w], after [pre] and before
    [post]. The realigner returns, its output holds [L[w]] at the first
    position of the run and [-100] at the [n] other positions of the run; so,
    unless [L[w]] is itself [-100], the first position is the only one of the
    run that holds [L[w]]. *)
Theorem realign_label_on_first_token_of_run (L : list Z)
    (pre post : list (option Z)) (w : Z) (n : nat) :
  Forall (valid_entry L) (pre ++ replicate (S n) (Some w) ++ post) ->
  last pre ≠ Some (Some w) ->
  head post ≠ Some (Some w) ->
  exists A x,
    realign L (pre ++ replicate (S n) (Some w) ++ post) = Ok A /\
    L !! Z.to_nat w = Some x /\
    A !! length pre = Some x /\
    (forall k, (0 < k <= n)%nat -> A !! (length pre + k)%nat = Some IGNORE) /\
    (x ≠ IGNORE ->
     forall k, (k <= n)%nat ->
               A !! (length pre + k)%nat = Some x <-> k = 0%nat).
Proof.
  intros HM Hpre _.
  destruct (realign_valid L _ HM) as [A HA].
  destruct (realign_at_run L pre post w n A) as (x & Hx & Hfirst & Hrest);
    [by eapply valid_run_index | done | done |].
  exists A, x. repeat split; try done.
  - intros Hk. destruct k as [|k]; [done|].
    rewrite Hrest in Hk by lia. congruence.
  - intros ->. by rewrite Nat.add_0_r.
Qed.

Lemma realign_label_on_first_token_of_run_witness :
  exists A x,
    realign [5] ([None] ++ replicate 2 (Some 0) ++ [None]) = Ok A /\
    [5] !! Z.to_nat 0 = Some x /\
    A !! length [@None Z] = Some x /\
    (forall k, (0 < k <= 1)%nat ->
               A !! (length [@None Z] + k)%nat = Some IGNORE) /\
    (x ≠ IGNORE ->
     forall k, (k <= 1)%nat ->
               A !! (length [@None Z] + k)%nat = Some x <-> k = 0%nat).
Proof.
  apply (realign_label_on_first_token_of_run [5] [None] [None] 0 1).
  - repeat constructor; simpl; lia.
  - discriminate.
  - discriminate.
Defined.

(** C2. The output of the realigner is as long as the map: whenever it
    returns, and it returns on every map whose entries are the sentinel or
    indices into [L]; each iteration that completes appends exactly one
    entry. *)
Theorem realign_preserves_length (L : list Z) (M : list (option Z)) :
  (forall A, realign L M = Ok A -> length A = length M) /\
  (Forall (valid_entry L) M ->
   exists A, realign L M = Ok A /\ length A = length M) /\
  (forall st x st',
     realign_step L st x = Ok st' ->
     length (single_new_ner_tag st') = S (length (single_new_ner_tag st))).
Proof.
  split; [apply realign_length|]. split.
  - intros HM. destruct (realign_valid L M HM) as [A HA].
    exists A. split; [done|]. by apply realign_length in HA.
  - intros st x st'. unfold realign_step.
    intros (y & _ & [= <-])%bind_Ok. simpl.
    rewrite length_app. simpl. lia.
Qed.

Lemma realign_preserves_length_witness :
  exists A, realign [1; 2] [None; Some 0; Some 1; Some 1; None] = Ok A /\
            length A = length [None; Some 0; Some 1; Some 1; None].
Proof.
  apply (realign_preserves_length [1; 2] [None; Some 0; Some 1; Some 1; None]).
  repeat constructor; simpl; lia.
Defined.

(** C3. Where the map holds the sentinel, the output holds [-100]: the
    sentinel branch appends [-100] whatever [prev_idx] is, so this holds of
    every output the realigner returns, and it returns on every map whose
    entries are the sentinel or indices into [L]. *)
Theorem realign_sentinel_ignored (L : list Z) (M : list (option Z)) (t : nat) :
  M !! t = Some None ->
  (forall prev, token_label L prev None = Ok IGNORE) /\
  (forall A, realign L M = Ok A -> A !! t = Some IGNORE) /\
  (Forall (valid_entry L) M ->
   exists A, realign L M = Ok A /\ A !! t = Some IGNORE).
Proof.
  intros Ht.
  assert (forall A, realign L M = Ok A -> A !! t = Some IGNORE) as Hall.
  { intros A HA.
    destruct (realign_lookup _ _ _ _ _ HA Ht) as (y & Hy & Hlab).
    rewrite token_label_sentinel in Hlab. congruence. }
  split; [done|]. split; [done|].
  intros HM. destruct (realign_valid L M HM) as [A HA]. eauto.
Qed.

Lemma realign_sentinel_ignored_witness :
  (forall prev, token_label [5] prev None = Ok IGNORE) /\
  (forall A, realign [5] [None; Some 0; Some 0; None] = Ok A ->
             A !! 3%nat = Some IGNORE) /\
  (Forall (valid_entry [5]) [None; Some 0; Some 0; None] ->
   exists A, realign [5] [None; Some 0; Some 0; None] = Ok A /\
             A !! 3%nat = Some IGNORE).
Proof.
  apply (realign_sentinel_ignored [5] [None; Some 0; Some 0; None] 3).
  reflexivity.
Defined.

(** ** Entries outside the word sequence *)

(** The first entry that the subscript rejects ends the loop: the entries
    before it are processed, the iteration on it raises. [prev_idx] never
    holds a rejected entry at that point, so the iteration does evaluate the
    subscript. *)
Lemma labels_from_first_rejected (L : list Z) (M : list (option Z)) :
  Exists (fun x => ~ subscriptable L x) M ->
  forall prev, subscriptable L prev ->
  exists t0 x0 A0,
    M !! t0 = Some x0 /\ ~ subscriptable L x0 /\
    Forall (subscriptable L) (take t0 M) /\
    labels_from L prev (take t0 M) = Ok A0 /\
    labels_from L prev (take (S t0) M) = Raise IndexError /\
    labels_from L prev M = Raise IndexError.
Proof.
  induction M as [|x M IH]; intros HM prev Hprev.
  - by apply Exists_nil in HM.
  - destruct (decide (subscriptable L x)) as [Hx|Hx].
    + apply Exists_cons in HM as [HM|HM]; [done|].
      destruct (IH HM x Hx) as (t0 & x0 & A0 & Ht0 & Hx0 & Hbefore & HA0 & Hat & Hall).
      destruct (token_label_subscriptable L prev x Hx) as [y Hy].
      exists (S t0), x0, (y :: A0). repeat split; try done.
      * by constructor.
      * cbn [take labels_from]. by rewrite Hy, HA0.
      * cbn [take labels_from]. rewrite Hy. simpl.
        by rewrite Hat.
      * cbn [labels_from]. rewrite Hy. simpl. by rewrite Hall.
    + assert (token_label L prev x = Raise IndexError) as Hraise.
      { destruct x as [w|]; [|by destruct Hx].
        rewrite token_label_first by (intros ->; done).
        by apply list_getitem_outside. }
      exists 0%nat, x, []. repeat split; try done.
      * cbn [take labels_from]. by rewrite Hraise.
      * cbn [labels_from]. by rewrite Hraise.
Qed.

(** C4, counterexample. [-1] is outside [[0, len(L))] for [L = [7]], and the
    realigner returns the label [7] for it instead of raising: it is not true
    that every map with an entry outside [[0, len(L))] makes it raise. *)
Lemma realign_negative_index_accepted :
  [Some (-1)] !! 0%nat = Some (Some (-1)) /\
  ~ (0 <= -1 < Z.of_nat (length [7])) /\
  realign [7] [Some (-1)] = Ok [7] /\
  ~ (forall (L : list Z) (M : list (option Z)),
       (exists t w, M !! t = Some (Some w) /\
                    ~ (0 <= w < Z.of_nat (length L))) ->
       exists e, realign L M = Raise e).
Proof.
  split; [reflexivity|]. split; [simpl; lia|]. split; [reflexivity|].
  intros Hclaim. destruct (Hclaim [7] [Some (-1)]) as [e He].
  - exists 0%nat, (-1). split; [reflexivity | simpl; lia].
  - discriminate He.
Qed.

(** C4, amended. The realigner raises [IndexError] exactly when some
    non-sentinel entry of the map is outside [[-len(L), len(L))]; it raises at
    the first such position, the positions before it having been processed
    without error. An entry of [[-len(L), 0)] does not raise. *)
Theorem realign_raises_outside_subscript_range (L : list Z)
    (M : list (option Z)) :
  ((exists t w, M !! t = Some (Some w) /\
                ~ (- Z.of_nat (length L) <= w < Z.of_nat (length L))) ->
   exists t0 w0 A0,
     M !! t0 = Some (Some w0) /\
     ~ (- Z.of_nat (length L) <= w0 < Z.of_nat (length L)) /\
     Forall (subscriptable L) (take t0 M) /\
     realign L (take t0 M) = Ok A0 /\
     realign L (take (S t0) M) = Raise IndexError /\
     realign L M = Raise IndexError) /\
  (Forall (subscriptable L) M -> exists A, realign L M = Ok A).
Proof.
  split; [|apply realign_subscriptable].
  intros (t & w & Ht & Hw).
  destruct (labels_from_first_rejected L M) with (prev := @None Z)
    as (t0 & x0 & A0 & Ht0 & Hx0 & Hbefore & HA0 & Hat & Hall).
  { apply Exists_exists. exists (Some w). split; [|done].
    by eapply list_elem_of_lookup_2. }
  { done. }
  destruct x0 as [w0|]; [|by destruct Hx0].
  exists t0, w0, A0. by rewrite !realign_labels_from.
Qed.

Lemma realign_raises_outside_subscript_range_witness :
  exists t0 w0 A0,
    [None; Some 0; Some 2] !! t0 = Some (Some w0) /\
    ~ (- Z.of_nat (length [7; 8]) <= w0 < Z.of_nat (length [7; 8])) /\
    Forall (subscriptable [7; 8]) (take t0 [None; Some 0; Some 2]) /\
    realign [7; 8] (take t0 [None; Some 0; Some 2]) = Ok A0 /\
    realign [7; 8] (take (S t0) [None; Some 0; Some 2]) = Raise IndexError /\
    realign [7; 8] [None; Some 0; Some 2] = Raise IndexError.
Proof.
  apply (realign_raises_outside_subscript_range [7; 8] [None; Some 0; Some 2]).
  exists 2%nat, 2. split; [reflexivity | simpl; lia].
Defined.

(** ** Concrete maps *)

(** C6. The six-word example: thirteen labels, the real label on the first
    token of each run only; not the eight labels of the comment in the
    source. *)
Theorem realign_six_words :
  realign [1; 2; 3; 4; 5; 6]
          [None; Some 0; Some 1; Some 1; Some 2; Some 2; Some 2; Some 3;
           Some 4; Some 5; Some 5; Some 5; None]
  = Ok [IGNORE; 1; 2; IGNORE; 3; IGNORE; IGNORE; 4; 5; 6; IGNORE; IGNORE; IGNORE]
  /\ IGNORE = -100
  /\ realign [1; 2; 3; 4; 5; 6]
             [None; Some 0; Some 1; Some 1; Some 2; Some 2; Some 2; Some 3;
              Some 4; Some 5; Some 5; Some 5; None]
     ≠ Ok [-100; 1; 2; 3; 4; 5; 6; -100].
Proof. split; [reflexivity|]. split; [reflexivity | discriminate]. Qed.

Lemma all_sentinel_replicate (M : list (option Z)) :
  Forall (fun x => x = None) M -> M = replicate (length M) None.
Proof.
  induction 1 as [|x M -> _ IH]; [done|]. simpl. by rewrite <- IH.
Qed.

(** C7. With no words and a map of sentinels only, the realigner returns
    [-100] at every position, as many as the map has. The word labels are
    never read: the result is the same for every [L]. *)
Theorem realign_empty_words (M : list (option Z)) :
  Forall (fun x => x = None) M ->
  realign [] M = Ok (replicate (length M) IGNORE) /\
  length (replicate (length M) IGNORE) = length M /\
  forall L, realign L M = realign [] M.
Proof.
  intros HM.
  assert (forall L, realign L M = Ok (replicate (length M) IGNORE)) as Hall.
  { intros L. rewrite realign_labels_from.
    rewrite (all_sentinel_replicate M HM) at 1.
    apply labels_from_sentinels. }
  split; [apply Hall|]. split; [apply length_replicate|].
  intros L. by rewrite !Hall.
Qed.

Lemma realign_empty_words_witness :
  realign [] [None; None; None] = Ok (replicate (length [@None Z; None; None]) IGNORE) /\
  length (replicate (length [@None Z; None; None]) IGNORE) =
    length [@None Z; None; None] /\
  forall L, realign L [None; None; None] = realign [] [None; None; None].
Proof.
  apply (realign_empty_words [None; None; None]).
  repeat constructor.
Defined.

(** ** Repeated word indices *)

(** C8. Two maximal runs of the same word index [w], with [mid] between them
    holding an entry of another word index. The realigner returns and the
    first position of each of the two runs holds [L[w]]: the runs are not
    merged. The label of a position is [token_label] of the entry there and
    of the entry right before it, whatever else the map holds. *)
Theorem realign_nonadjacent_runs_not_merged (L : list Z)
    (pre mid post : list (option Z)) (w w' : Z) (n1 n2 : nat) :
  Forall (valid_entry L)
    (pre ++ replicate (S n1) (Some w) ++ mid ++
     replicate (S n2) (Some w) ++ post) ->
  last pre ≠ Some (Some w) ->
  head mid ≠ Some (Some w) ->
  last mid ≠ Some (Some w) ->
  head post ≠ Some (Some w) ->
  Some w' ∈ mid ->
  w' ≠ w ->
  exists A x,
    realign L (pre ++ replicate (S n1) (Some w) ++ mid ++
               replicate (S n2) (Some w) ++ post) = Ok A /\
    L !! Z.to_nat w = Some x /\
    A !! length pre = Some x /\
    A !! (length pre + S n1 + length mid)%nat = Some x /\
    (forall t y,
       (pre ++ replicate (S n1) (Some w) ++ mid ++
        replicate (S n2) (Some w) ++ post) !! t = Some y ->
       exists a,
         A !! t = Some a /\
         token_label L
           (prev_idx_at None
              (pre ++ replicate (S n1) (Some w) ++ mid ++
               replicate (S n2) (Some w) ++ post) t) y = Ok a).
Proof.
  intros HM Hpre _ Hmid _ Hin _.
  destruct (realign_valid L _ HM) as [A HA].
  pose proof (valid_run_index _ _ _ _ _ HM) as Hw.
  destruct (realign_at_run L pre _ w n1 A Hw Hpre HA) as (x & Hx & Hfirst & _).
  exists A, x. repeat split; try done.
  - pose proof HA as HA'.
    rewrite (app_assoc (replicate (S n1) (Some w)) mid), (app_assoc pre) in HA'.
    destruct (realign_at_run L (pre ++ replicate (S n1) (Some w) ++ mid)
                post w n2 A Hw) as (x2 & Hx2 & Hsecond & _); [|exact HA'|].
    { rewrite !last_app. destruct (last mid) as [a|] eqn:Hlast; [done|].
      apply last_None in Hlast as ->. by apply elem_of_nil in Hin. }
    rewrite !length_app, length_replicate, Nat.add_assoc in Hsecond.
    congruence.
  - intros t y Ht. by eapply realign_lookup.
Qed.

Lemma realign_nonadjacent_runs_not_merged_witness :
  exists A x,
    realign [7; 8] ([None] ++ replicate 2 (Some 0) ++ [Some 1] ++
                    replicate 1 (Some 0) ++ [None]) = Ok A /\
    [7; 8] !! Z.to_nat 0 = Some x /\
    A !! length [@None Z] = Some x /\
    A !! (length [@None Z] + 2 + length [Some 1])%nat = Some x /\
    (forall t y,
       ([None] ++ replicate 2 (Some 0) ++ [Some 1] ++
        replicate 1 (Some 0) ++ [None]) !! t = Some y ->
       exists a,
         A !! t = Some a /\
         token_label [7; 8]
           (prev_idx_at None
              ([None] ++ replicate 2 (Some 0) ++ [Some 1] ++
               replicate 1 (Some 0) ++ [None]) t) y = Ok a).
Proof.
  apply (realign_nonadjacent_runs_not_merged
           [7; 8] [None] [Some 1] [None] 0 1 1 0).
  - repeat constructor; simpl; lia.
  - discriminate.
  - discriminate.
  - discriminate.
  - discriminate.
  - apply list_elem_of_here.
  - lia.
Defined.

(** C10. The same word index [w] right before and right after a run of
    [S k] sentinels. The realigner returns, the sentinel positions hold
    [-100] and the first position after them holds [L[w]] again: the
    iteration on a sentinel leaves [None] in [prev_idx]. *)
Theorem realign_sentinel_resets_run (L : list Z) (pre post : list (option Z))
    (w : Z) (k : nat) :
  Forall (valid_entry L)
    (pre ++ [Some w] ++ replicate (S k) None ++ [Some w] ++ post) ->
  exists A x,
    realign L (pre ++ [Some w] ++ replicate (S k) None ++ [Some w] ++ post)
      = Ok A /\
    L !! Z.to_nat w = Some x /\
    (forall j, (j < S k)%nat -> A !! (length pre + 1 + j)%nat = Some IGNORE) /\
    A !! (length pre + 1 + S k)%nat = Some x /\
    (forall st, exists st',
        realign_step L st None = Ok st' /\ prev_idx st' = None).
Proof.
  intros HM.
  destruct (realign_valid L _ HM) as [A HA].
  assert (0 <= w < Z.of_nat (length L)) as Hw.
  { rewrite Forall_app in HM. destruct HM as [_ HM].
    by apply Forall_cons_1 in HM as [Hw _]. }
  pose proof HA as HA1.
  rewrite (app_assoc pre) in HA1.
  pose proof HA1 as HA2.
  rewrite (app_assoc (pre ++ [Some w])) in HA2.
  destruct (realign_at_run L ((pre ++ [Some w]) ++ replicate (S k) None)
              post w 0 A Hw) as (x & Hx & Hafter & _); [|exact HA2|].
  { rewrite replicate_S_end, app_assoc. by rewrite last_snoc. }
  rewrite !length_app, length_replicate in Hafter. simpl in Hafter.
  exists A, x. repeat split; try done.
  - intros j Hj.
    destruct (realign_lookup _ _ _ (length (pre ++ [Some w]) + j) None HA1)
      as (y & Hy & Hlab).
    { by apply lookup_run. }
    rewrite length_app in Hy. simpl in Hy.
    rewrite token_label_sentinel in Hlab. congruence.
  - intros st. eexists. split; [by apply realign_step_Ok|]. done.
Qed.

Lemma realign_sentinel_resets_run_witness :
  exists A x,
    realign [7; 8] ([Some 1] ++ [Some 0] ++ replicate 2 None ++ [Some 0] ++ [])
      = Ok A /\
    [7; 8] !! Z.to_nat 0 = Some x /\
    (forall j, (j < 2)%nat ->
               A !! (length [Some 1] + 1 + j)%nat = Some IGNORE) /\
    A !! (length [Some 1] + 1 + 2)%nat = Some x /\
    (forall st, exists st',
        realign_step [7; 8] st None = Ok st' /\ prev_idx st' = None).
Proof.
  apply (realign_sentinel_resets_run [7; 8] [Some 1] [] 0 1).
  repeat constructor; simpl; lia.
Defined.

(** ** Comprehensions and loops over a batch *)

Section mapM_result.

Context {A B : Type} (f : A -> result B).

Lemma mapM_Ok_1 (l : list A) (k : list B) :
  mapM f l = Ok k -> Forall2 (fun x y => f x = Ok y) l k.
Proof.
  revert k. induction l as [|x l IH]; intros k; simpl.
  - intros [= <-]. constructor.
  - intros (y & Hy & (k' & Hk' & [= <-])%bind_Ok)%bind_Ok.
    constructor; auto.
Qed.

Lemma mapM_Ok_2 (l : list A) (k : list B) :
  Forall2 (fun x y => f x = Ok y) l k -> mapM f l = Ok k.
Proof.
  induction 1 as [|x y l k Hxy _ IH]; simpl; [done|].
  by rewrite Hxy, IH.
Qed.

Lemma mapM_Ok (l : list A) (k : list B) :
  mapM f l = Ok k <-> Forall2 (fun x y => f x = Ok y) l k.
Proof. split; [apply mapM_Ok_1 | apply mapM_Ok_2]. Qed.

Lemma mapM_Ok_total (l : list A) :
  Forall (fun x => exists y, f x = Ok y) l -> exists k, mapM f l = Ok k.
Proof.
  induction 1 as [|x l [y Hy] _ [k Hk]]; simpl; [by eexists|].
  rewrite Hy, Hk. by eexists.
Qed.

End mapM_result.

Lemma enumerate_from_lookup {A : Type} (xs : list A) (i k : nat) (x : A) :
  xs !! k = Some x -> enumerate_from i xs !! k = Some ((i + k)%nat, x).
Proof.
  revert i k. induction xs as [|x0 xs IH]; intros i k; [done|].
  destruct k as [|k]; simpl.
  - intros [= ->]. by rewrite Nat.add_0_r.
  - intros Hk. rewrite (IH (S i) k Hk). f_equal. f_equal. lia.
Qed.

Lemma enumerate_lookup {A : Type} (xs : list A) (k : nat) (x : A) :
  xs !! k = Some x -> enumerate xs !! k = Some (k, x).
Proof. apply (enumerate_from_lookup xs 0 k x). Qed.

(** One iteration of the outer loop appends the realigner's output for its
    own example, whatever the locals held before. *)
Lemma example_step_realign (word_ids : nat -> list (option Z)) (st : locals)
    (p : nat * list Z) :
  example_step word_ids st p =
  ys ← realign p.2 (word_ids p.1);
  Ok {| prev_idx := prev_after None (word_ids p.1);
        single_new_ner_tag := ys;
        all_new_ner_tags := all_new_ner_tags st ++ [ys] |}.
Proof.
  unfold example_step. rewrite realign_labels_from, for_each_realign_step.
  simpl. by destruct (labels_from p.2 None (word_ids p.1)).
Qed.

Lemma for_each_example_step (word_ids : nat -> list (option Z))
    (exs : list (nat * list Z)) (st : locals) :
  (st' ← for_each (example_step word_ids) st exs; Ok (all_new_ner_tags st')) =
  outs ← mapM (fun p => realign p.2 (word_ids p.1)) exs;
  Ok (all_new_ner_tags st ++ outs).
Proof.
  revert st. induction exs as [|p exs IH]; intros st.
  - simpl. by rewrite app_nil_r.
  - cbn [for_each mapM]. rewrite example_step_realign.
    destruct (realign p.2 (word_ids p.1)) as [ys|e]; simpl; [|done].
    rewrite IH. simpl.
    destruct (mapM _ exs) as [outs|e]; simpl; [|done].
    by rewrite <- app_assoc.
Qed.

Lemma preprocess_dataset_mapM (word_ids : nat -> list (option Z))
    (ner_tags : list (list Z)) :
  preprocess_dataset word_ids ner_tags =
  mapM (fun p => realign p.2 (word_ids p.1)) (enumerate ner_tags).
Proof.
  unfold preprocess_dataset. rewrite for_each_example_step. simpl.
  by destruct (mapM _ (enumerate ner_tags)).
Qed.

Lemma preprocess_dataset_lookup (word_ids : nat -> list (option Z))
    (ner_tags : list (list Z)) (out : list (list Z)) (i : nat) (L : list Z) :
  preprocess_dataset word_ids ner_tags = Ok out ->
  ner_tags !! i = Some L ->
  exists A, realign L (word_ids i) = Ok A /\ out !! i = Some A.
Proof.
  rewrite preprocess_dataset_mapM. intros Hout%mapM_Ok_1 HL.
  apply enumerate_lookup in HL.
  destruct (Forall2_lookup_l _ _ _ _ _ Hout HL) as (A & HA & Hreal).
  eauto.
Qed.

(** C5. The labels of an example are the realigner's output on its own
    [(L, M)]: [preprocess_dataset] is the realigner applied example by
    example, the locals left by earlier examples having no effect. Hence two
    invocations, in whatever batch and at whatever place, that meet the same
    [(L, M)] give the same labels for it. *)
Theorem realign_depends_on_example_only :
  (forall word_ids ner_tags,
     preprocess_dataset word_ids ner_tags =
     mapM (fun p => realign p.2 (word_ids p.1)) (enumerate ner_tags)) /\
  (forall word_ids st1 st2 ner_idx ner_tag st1',
     example_step word_ids st1 (ner_idx, ner_tag) = Ok st1' ->
     exists st2',
       example_step word_ids st2 (ner_idx, ner_tag) = Ok st2' /\
       single_new_ner_tag st2' = single_new_ner_tag st1' /\
       realign ner_tag (word_ids ner_idx) = Ok (single_new_ner_tag st1')) /\
  (forall word_ids1 word_ids2 batch1 batch2 out1 out2 i j L M,
     preprocess_dataset word_ids1 batch1 = Ok out1 ->
     preprocess_dataset word_ids2 batch2 = Ok out2 ->
     batch1 !! i = Some L -> word_ids1 i = M ->
     batch2 !! j = Some L -> word_ids2 j = M ->
     exists A, realign L M = Ok A /\
               out1 !! i = Some A /\ out2 !! j = Some A).
Proof.
  split; [apply preprocess_dataset_mapM|]. split.
  - intros word_ids st1 st2 ner_idx ner_tag st1'.
    rewrite !example_step_realign. simpl.
    intros (ys & Hys & [= <-])%bind_Ok. rewrite Hys. simpl. eauto.
  - intros word_ids1 word_ids2 batch1 batch2 out1 out2 i j L M
      Hout1 Hout2 Hi HM1 Hj HM2.
    destruct (preprocess_dataset_lookup _ _ _ _ _ Hout1 Hi) as (A1 & HA1 & Ho1).
    destruct (preprocess_dataset_lookup _ _ _ _ _ Hout2 Hj) as (A2 & HA2 & Ho2).
    rewrite HM1 in HA1. rewrite HM2 in HA2.
    exists A1. split; [done|]. split; [done|]. congruence.
Qed.

Lemma realign_depends_on_example_only_witness :
  exists A,
    realign [5] [None; Some 0; Some 0; None] = Ok A /\
    [[-100; 5; -100; -100]] !! 0%nat = Some A /\
    [[-100; 3]; [-100; 5; -100; -100]] !! 1%nat = Some A.
Proof.
  apply (proj2 (proj2 realign_depends_on_example_only)
           (fun _ => [None; Some 0; Some 0; None])
           (fun n => match n with
                     | O => [None; Some 0]
                     | S _ => [None; Some 0; Some 0; None]
                     end)
           [[5]] [[3]; [5]]
           [[-100; 5; -100; -100]] [[-100; 3]; [-100; 5; -100; -100]]
           0%nat 1%nat [5] [None; Some 0; Some 0; None]);
    reflexivity.
Defined.

(** ** [compute_metrics] *)

Lemma kept_from_spec (label : list Z) (off t : nat) :
  t ∈ kept_from off label <->
  (off <= t)%nat /\ exists x, label !! (t - off)%nat = Some x /\ x ≠ IGNORE.
Proof.
  revert off. induction label as [|x label IH]; intros off; simpl.
  - rewrite elem_of_nil. split; [done | by intros (_ & y & [=] & _)].
  - assert (t ∈ kept_from (S off) label <->
            (off < t)%nat /\
            exists y, (x :: label) !! (t - off)%nat = Some y /\ y ≠ IGNORE)
      as Htail.
    { rewrite IH. split.
      - intros (Hle & y & Hy & Hne). split; [lia|]. exists y. split; [|done].
        by replace (t - off)%nat with (S (t - S off)) by lia.
      - intros (Hlt & y & Hy & Hne). split; [lia|]. exists y. split; [|done].
        by replace (t - off)%nat with (S (t - S off)) in Hy by lia. }
    destruct (decide (x ≠ IGNORE)) as [Hx|Hx].
    + rewrite elem_of_cons, Htail. split.
      * intros [-> | (Hlt & Hy)]; [|split; [lia | done]].
        split; [lia|]. exists x. by rewrite Nat.sub_diag.
      * intros (Hle & Hy). destruct (decide (t = off)) as [->|Hne]; [by left|].
        right. split; [lia | done].
    + rewrite Htail. split.
      * intros (Hlt & Hy). split; [lia | done].
      * intros (Hle & y & Hy & Hne). split; [|by exists y].
        destruct (decide (t = off)) as [->|]; [|lia].
        rewrite Nat.sub_diag in Hy. simpl in Hy. injection Hy as ->.
        by destruct Hx.
Qed.

Lemma kept_positions_spec (label : list Z) (t : nat) :
  t ∈ kept_positions label <-> exists x, label !! t = Some x /\ x ≠ IGNORE.
Proof.
  unfold kept_positions. rewrite kept_from_spec, Nat.sub_0_r.
  split; [by intros [_ H] | intros H; split; [lia | done]].
Qed.

(** The labels that pass the filter of [true_labels] are those at the kept
    positions. *)
Lemma filter_label_kept (label : list Z) (off : nat) :
  Forall2 (fun t x => (off <= t)%nat /\ label !! (t - off)%nat = Some x /\
                      x ≠ IGNORE)
          (kept_from off label) (filter (fun l => l ≠ -100) label).
Proof.
  revert off. induction label as [|x label IH]; intros off; simpl.
  - constructor.
  - assert (Forall2 (fun t y => (off <= t)%nat /\
                                (x :: label) !! (t - off)%nat = Some y /\
                                y ≠ IGNORE)
                    (kept_from (S off) label)
                    (filter (fun l => l ≠ -100) label)) as Htail.
    { eapply Forall2_impl; [apply (IH (S off))|].
      intros t y (Hle & Hy & Hne). split; [lia|]. split; [|done].
      by replace (t - off)%nat with (S (t - S off)) by lia. }
    rewrite filter_cons. unfold IGNORE in *.
    destruct (decide (x ≠ -100)) as [Hx|Hx]; [|done].
    constructor; [|done]. split; [lia|]. by rewrite Nat.sub_diag.
Qed.

(** The pairs that pass the filter of [true_predictions] are those at the
    same kept positions. *)
Lemma filter_zip_kept (prediction label : list Z) (off : nat) :
  length prediction = length label ->
  Forall2 (fun t q => (off <= t)%nat /\
                      prediction !! (t - off)%nat = Some q.1 /\
                      label !! (t - off)%nat = Some q.2)
          (kept_from off label)
          (filter (fun q : Z * Z => q.2 ≠ -100) (zip prediction label)).
Proof.
  revert prediction off. induction label as [|x label IH];
    intros [|p prediction] off Hlen; simpl in *; try done.
  assert (Forall2 (fun t q => (off <= t)%nat /\
                              (p :: prediction) !! (t - off)%nat = Some q.1 /\
                              (x :: label) !! (t - off)%nat = Some q.2)
                  (kept_from (S off) label)
                  (filter (fun q : Z * Z => q.2 ≠ -100) (zip prediction label)))
    as Htail.
  { eapply Forall2_impl; [apply (IH prediction (S off)); lia|].
    intros t q (Hle & Hp & Hl). split; [lia|].
    by replace (t - off)%nat with (S (t - S off)) by lia. }
  rewrite filter_cons. simpl. unfold IGNORE in *.
  destruct (decide (x ≠ -100)) as [Hx|Hx]; [|done].
  constructor; [|done]. split; [lia|]. by rewrite Nat.sub_diag.
Qed.

Lemma Forall2_compose {A B C : Type} (R1 : A -> B -> Prop) (R2 : B -> C -> Prop)
    (l1 : list A) (l2 : list B) (l3 : list C) :
  Forall2 R1 l1 l2 -> Forall2 R2 l2 l3 ->
  Forall2 (fun a c => exists b, R1 a b /\ R2 b c) l1 l3.
Proof.
  intros H12. revert l3. induction H12 as [|a b l1 l2 Hab _ IH]; intros l3 H23.
  - apply Forall2_nil_inv_l in H23 as ->. constructor.
  - apply Forall2_cons_inv_l in H23 as (c & l3' & Hbc & H23 & ->).
    constructor; eauto.
Qed.

Section metrics_facts.

Variable id2label : gmap Z string.

Lemma dict_getitem_Ok (k : Z) (v : string) :
  dict_getitem id2label k = Ok v <-> id2label !! k = Some v.
Proof.
  unfold dict_getitem. destruct (id2label !! k); split; congruence.
Qed.

Lemma example_labels_kept (label : list Z) (tli : list string) :
  mapM (fun l => dict_getitem id2label l) (filter (fun l => l ≠ -100) label)
    = Ok tli ->
  Forall2 (fun t s => exists x, label !! t = Some x /\ x ≠ IGNORE /\
                                id2label !! x = Some s)
          (kept_positions label) tli.
Proof.
  intros Htli%mapM_Ok_1.
  eapply Forall2_impl;
    [exact (Forall2_compose _ _ _ _ _ (filter_label_kept label 0) Htli)|].
  intros t s (x & (_ & Hx & Hne) & Hs%dict_getitem_Ok).
  rewrite Nat.sub_0_r in Hx. eauto.
Qed.

Lemma example_predictions_kept (prediction label : list Z)
    (tpi : list string) :
  length prediction = length label ->
  mapM (fun q : Z * Z => dict_getitem id2label q.1)
       (filter (fun q : Z * Z => q.2 ≠ -100) (zip prediction label))
    = Ok tpi ->
  Forall2 (fun t s => exists y, prediction !! t = Some y /\
                                id2label !! y = Some s)
          (kept_positions label) tpi.
Proof.
  intros Hlen Htpi%mapM_Ok_1.
  eapply Forall2_impl;
    [exact (Forall2_compose _ _ _ _ _
              (filter_zip_kept prediction label 0 Hlen) Htpi)|].
  intros t s (q & (_ & Hp & _) & Hs%dict_getitem_Ok).
  rewrite Nat.sub_0_r in Hp. eauto.
Qed.

Lemma example_labels_total (label : list Z) :
  Forall (fun x => x ≠ IGNORE -> is_Some (id2label !! x)) label ->
  exists k,
    mapM (fun l => dict_getitem id2label l)
         (filter (fun l => l ≠ -100) label) = Ok k.
Proof.
  induction 1 as [|x label Hx _ [k Hk]]; [by eexists|].
  rewrite filter_cons. destruct (decide (x ≠ -100)) as [Hne|Hne]; [|eauto].
  destruct (Hx Hne) as [v Hv%dict_getitem_Ok].
  simpl. rewrite Hv, Hk. by eexists.
Qed.

Lemma example_predictions_total (prediction label : list Z) :
  Forall (fun y => is_Some (id2label !! y)) prediction ->
  exists k,
    mapM (fun q : Z * Z => dict_getitem id2label q.1)
         (filter (fun q : Z * Z => q.2 ≠ -100) (zip prediction label)) = Ok k.
Proof.
  intros Hp. revert label.
  induction Hp as [|y prediction [v Hv%dict_getitem_Ok] _ IH];
    intros [|x label]; try by eexists.
  destruct (IH label) as [k Hk]. simpl. rewrite filter_cons. simpl.
  destruct (decide (x ≠ -100)); [|eauto].
  simpl. rewrite Hv, Hk. by eexists.
Qed.

Lemma true_labels_total (labels : list (list Z)) :
  Forall (Forall (fun x => x ≠ IGNORE -> is_Some (id2label !! x))) labels ->
  exists tl, true_labels id2label labels = Ok tl.
Proof.
  intros Hl. apply mapM_Ok_total.
  eapply Forall_impl; [exact Hl|]. apply example_labels_total.
Qed.

Lemma true_predictions_total (predictions labels : list (list Z)) :
  Forall (Forall (fun y => is_Some (id2label !! y))) predictions ->
  exists tp, true_predictions id2label predictions labels = Ok tp.
Proof.
  intros Hp. apply mapM_Ok_total. revert labels.
  induction Hp as [|p predictions Hp _ IH]; intros [|l labels];
    simpl; try constructor; [|apply IH].
  by apply example_predictions_total.
Qed.

End metrics_facts.

(** C9. [compute_metrics] keeps, in the predictions and in the true labels
    alike, the positions whose true label is not [-100]. For predictions and
    labels with as many examples and as many positions per example, and an
    [id2label] that knows the real labels and the predictions, both
    comprehensions return and [seqeval.compute] receives them; for each
    example the two filtered sequences have the same length and are the
    names of the prediction and of the label at the kept positions, which are
    the positions of a label other than [-100]. *)
Theorem compute_metrics_filters_on_true_label (id2label : gmap Z string)
    (predictions labels : list (list Z)) :
  Forall2 (fun p l => length p = length l) predictions labels ->
  Forall (Forall (fun x => x ≠ IGNORE -> is_Some (id2label !! x))) labels ->
  Forall (Forall (fun y => is_Some (id2label !! y))) predictions ->
  exists tp tl,
    true_predictions id2label predictions labels = Ok tp /\
    true_labels id2label labels = Ok tl /\
    (forall (Probs Scores : Type) (np_argmax : Probs -> list (list Z))
            (seqeval_compute :
               list (list string) -> list (list string) -> result Scores)
            (probs : Probs),
        np_argmax probs = predictions ->
        compute_metrics np_argmax seqeval_compute id2label probs labels =
        seqeval_compute tp tl) /\
    forall i prediction label,
      predictions !! i = Some prediction ->
      labels !! i = Some label ->
      exists tpi tli,
        tp !! i = Some tpi /\ tl !! i = Some tli /\
        length tpi = length tli /\
        Forall2 (fun t s => exists y, prediction !! t = Some y /\
                                      id2label !! y = Some s)
                (kept_positions label) tpi /\
        Forall2 (fun t s => exists x, label !! t = Some x /\ x ≠ IGNORE /\
                                      id2label !! x = Some s)
                (kept_positions label) tli /\
        (forall t, t ∈ kept_positions label <->
                   exists x, label !! t = Some x /\ x ≠ IGNORE).
Proof.
  intros Hlen Hlabels Hpreds.
  destruct (true_predictions_total id2label predictions labels Hpreds)
    as [tp Htp].
  destruct (true_labels_total id2label labels Hlabels) as [tl Htl].
  exists tp, tl. split; [done|]. split; [done|]. split.
  - intros Probs Scores np_argmax seqeval_compute probs Hargmax.
    unfold compute_metrics. by rewrite Hargmax, Htl, Htp.
  - intros i prediction label Hp Hl.
    apply mapM_Ok_1 in Htp, Htl.
    destruct (Forall2_lookup_l _ _ _ i (prediction, label) Htp)
      as (tpi & Htpi & Hmap_p).
    { apply lookup_zip_with_Some. by exists prediction, label. }
    destruct (Forall2_lookup_l _ _ _ i label Htl Hl) as (tli & Htli & Hmap_l).
    pose proof (Forall2_lookup_lr _ _ _ _ _ _ Hlen Hp Hl) as Hlen_i.
    simpl in Hmap_p, Hlen_i.
    pose proof (example_predictions_kept id2label _ _ _ Hlen_i Hmap_p) as Hkp.
    pose proof (example_labels_kept id2label _ _ Hmap_l) as Hkl.
    exists tpi, tli. repeat split; try done.
    + apply Forall2_length in Hkp, Hkl. congruence.
    + by apply kept_positions_spec.
    + by apply kept_positions_spec.
Qed.

Lemma compute_metrics_filters_on_true_label_witness :
  exists tp tl,
    true_predictions (<[0:="O"]> (<[1:="B-person"]> ∅))
      [[0; 1; 1; 0]] [[-100; 1; -100; 0]] = Ok tp /\
    true_labels (<[0:="O"]> (<[1:="B-person"]> ∅)) [[-100; 1; -100; 0]]
      = Ok tl /\
    (forall (Probs Scores : Type) (np_argmax : Probs -> list (list Z))
            (seqeval_compute :
               list (list string) -> list (list string) -> result Scores)
            (probs : Probs),
        np_argmax probs = [[0; 1; 1; 0]] ->
        compute_metrics np_argmax seqeval_compute
          (<[0:="O"]> (<[1:="B-person"]> ∅)) probs [[-100; 1; -100; 0]] =
        seqeval_compute tp tl) /\
    forall i prediction label,
      [[0; 1; 1; 0]] !! i = Some prediction ->
      [[-100; 1; -100; 0]] !! i = Some label ->
      exists tpi tli,
        tp !! i = Some tpi /\ tl !! i = Some tli /\
        length tpi = length tli /\
        Forall2 (fun t s => exists y,
                     prediction !! t = Some y /\
                     (<[0:="O"]> (<[1:="B-person"]> ∅) : gmap Z string) !! y
                       = Some s)
                (kept_positions label) tpi /\
        Forall2 (fun t s => exists x,
                     label !! t = Some x /\ x ≠ IGNORE /\
                     (<[0:="O"]> (<[1:="B-person"]> ∅) : gmap Z string) !! x
                       = Some s)
                (kept_positions label) tli /\
        (forall t, t ∈ kept_positions label <->
                   exists x, label !! t = Some x /\ x ≠ IGNORE).
Proof.
  apply (compute_metrics_filters_on_true_label
           (<[0:="O"]> (<[1:="B-person"]> ∅))
           [[0; 1; 1; 0]] [[-100; 1; -100; 0]]).
  - repeat constructor.
  - repeat first
      [ apply Forall_nil_2
      | apply Forall_cons_2;
        [repeat first
           [ apply Forall_nil_2
           | apply Forall_cons_2;
             [intros H; first [by destruct H | by eexists]|] ]|] ].
  - repeat first
      [ apply Forall_nil_2
      | apply Forall_cons_2;
        [repeat first
           [ apply Forall_nil_2 | apply Forall_cons_2; [by eexists|] ]|] ].
Defined.

Example compute_metrics_filters_example :
  true_predictions (<[0:="O"]> (<[1:="B-person"]> ∅))
    [[0; 1; 1; 0]] [[-100; 1; -100; 0]] = Ok [["B-person"; "O"]] /\
  true_labels (<[0:="O"]> (<[1:="B-person"]> ∅)) [[-100; 1; -100; 0]]
    = Ok [["B-person"; "O"]].
Proof. split; vm_compute; reflexivity. Qed.

Example realign_playground :
  realign [5] [None; Some 0; Some 0; None] = Ok [-100; 5; -100; -100].
Proof. reflexivity. Qed.

(** ** More on the realigner *)

Lemma labels_from_app (L : list Z) (prev : option Z) (M1 M2 : list (option Z)) :
  labels_from L prev (M1 ++ M2) =
  A1 ← labels_from L prev M1;
  A2 ← labels_from L (prev_after prev M1) M2;
  Ok (A1 ++ A2).
Proof.
  revert prev. induction M1 as [|x M1 IH]; intros prev; simpl.
  - rewrite prev_after_nil. by destruct (labels_from L prev M2).
  - destruct (token_label L prev x) as [y|e]; simpl; [|done].
    rewrite IH, prev_after_cons.
    destruct (labels_from L x M1) as [A1|e]; simpl; [|done].
    by destruct (labels_from L (prev_after x M1) M2).
Qed.

(** The value of [prev_idx] matters for the first entry only, and only when
    both are the same word index. *)
Lemma labels_from_prev (L : list Z) (prev prev' : option Z)
    (M : list (option Z)) :
  (forall w, head M = Some (Some w) -> prev ≠ Some w /\ prev' ≠ Some w) ->
  labels_from L prev M = labels_from L prev' M.
Proof.
  destruct M as [|[w|] M]; simpl; [done| |done].
  intros H. destruct (H w eq_refl) as [Hp Hp'].
  by rewrite !decide_True.
Qed.

Lemma labels_from_take (L : list Z) (prev : option Z) (M : list (option Z))
    (A : list Z) (n : nat) :
  labels_from L prev M = Ok A ->
  labels_from L prev (take n M) = Ok (take n A).
Proof.
  revert prev A n. induction M as [|x M IH]; intros prev A n; simpl.
  - intros [= <-]. by destruct n.
  - intros (y & Hy & (ys & Hys & [= <-])%bind_Ok)%bind_Ok.
    destruct n as [|n]; simpl; [done|].
    by rewrite Hy, (IH _ _ n Hys).
Qed.

(** Truncating the map truncates the labels: the labels of the first [n]
    tokens do not depend on the tokens after them. *)
Theorem realign_take (L : list Z) (M : list (option Z)) (A : list Z) (n : nat) :
  realign L M = Ok A ->
  realign L (take n M) = Ok (take n A).
Proof. rewrite !realign_labels_from. apply labels_from_take. Qed.

Lemma realign_take_witness :
  realign [1; 2] (take 2 [None; Some 0; Some 1; Some 1; None])
  = Ok (take 2 [-100; 1; 2; -100; -100]).
Proof.
  apply (realign_take [1; 2] [None; Some 0; Some 1; Some 1; None]).
  reflexivity.
Defined.

(** A map cut between two runs is realigned piece by piece: when the second
    piece does not start with the word index the first piece ends with, the
    labels of the whole are the labels of the pieces, one after the other,
    and the whole raises exactly when a piece does. *)
Theorem realign_app_at_boundary (L : list Z) (M1 M2 : list (option Z)) :
  (forall w, head M2 = Some (Some w) -> last M1 ≠ Some (Some w)) ->
  realign L (M1 ++ M2) =
  A1 ← realign L M1; A2 ← realign L M2; Ok (A1 ++ A2).
Proof.
  intros Hcut. rewrite !realign_labels_from, labels_from_app.
  rewrite (labels_from_prev L (prev_after None M1) None M2); [done|].
  intros w Hw. split; [|done]. by apply prev_after_last_ne, Hcut.
Qed.

Lemma realign_app_at_boundary_witness :
  realign [1; 2] ([None; Some 0; Some 0] ++ [Some 1; None]) =
  A1 ← realign [1; 2] [None; Some 0; Some 0];
  A2 ← realign [1; 2] [Some 1; None];
  Ok (A1 ++ A2).
Proof.
  apply (realign_app_at_boundary [1; 2] [None; Some 0; Some 0] [Some 1; None]).
  intros w [= <-]. discriminate.
Defined.

(** A negative word index of [[-len(L), 0)] at the start of a run is not an
    error: it reads [L] from the end, the label is [L[len(L) + w]]. *)
Theorem realign_negative_index_wraps (L : list Z) (M : list (option Z))
    (A : list Z) (t : nat) (w : Z) :
  realign L M = Ok A ->
  M !! t = Some (Some w) ->
  prev_idx_at None M t ≠ Some w ->
  - Z.of_nat (length L) <= w < 0 ->
  exists x, L !! Z.to_nat (Z.of_nat (length L) + w) = Some x /\
            A !! t = Some x.
Proof.
  intros HA Ht Hprev Hw.
  destruct (realign_lookup _ _ _ _ _ HA Ht) as (y & Hy & Hlab).
  rewrite token_label_first in Hlab by done.
  destruct (list_getitem_negative L w Hw) as (x & Hx & Hget).
  exists x. split; [done|]. congruence.
Qed.

Lemma realign_negative_index_wraps_witness :
  exists x, [7; 8; 9] !! Z.to_nat (Z.of_nat (length [7; 8; 9]) + -1) = Some x /\
            [-100; 9] !! 1%nat = Some x.
Proof.
  apply (realign_negative_index_wraps [7; 8; 9] [None; Some (-1)] [-100; 9]
           1 (-1)).
  - reflexivity.
  - reflexivity.
  - discriminate.
  - simpl. lia.
Defined.

Lemma list_getitem_elem_of {A : Type} (l : list A) (i : Z) (x : A) :
  list_getitem l i = Ok x -> x ∈ l.
Proof.
  unfold list_getitem. destruct (list_position _ _) as [k|]; [|done].
  destruct (l !! k) as [y|] eqn:Hk; [|done].
  intros [= <-]. by eapply list_elem_of_lookup_2.
Qed.

Lemma token_label_elem_of (L : list Z) (prev x : option Z) (y : Z) :
  token_label L prev x = Ok y -> y = IGNORE \/ y ∈ L.
Proof.
  destruct x as [w|]; simpl; [|intros [= <-]; by left].
  destruct (decide (prev ≠ Some w)); [|intros [= <-]; by left].
  intros H. right. by eapply list_getitem_elem_of.
Qed.

(** The realigner makes up no label: every entry of its output is [-100] or
    one of the word labels, and an entry other than [-100] stands at a
    position that holds a word index. *)
Theorem realign_labels_from_words (L : list Z) (M : list (option Z))
    (A : list Z) :
  realign L M = Ok A ->
  forall t y, A !! t = Some y ->
    (y = IGNORE \/ y ∈ L) /\
    (y ≠ IGNORE -> exists w, M !! t = Some (Some w)).
Proof.
  intros HA t y Hy.
  pose proof (realign_length _ _ _ HA) as Hlen.
  destruct (lookup_lt_is_Some_2 M t) as [x Hx].
  { rewrite <- Hlen. by eapply lookup_lt_Some. }
  destruct (realign_lookup _ _ _ _ _ HA Hx) as (y' & Hy' & Hlab).
  assert (y' = y) as -> by congruence.
  split; [by eapply token_label_elem_of|].
  intros Hne. destruct x as [w|]; [by exists w|].
  rewrite token_label_sentinel in Hlab. congruence.
Qed.

Lemma realign_labels_from_words_witness :
  realign [5] [None; Some 0; Some 0; None] = Ok [-100; 5; -100; -100] /\
  forall t y, [-100; 5; -100; -100] !! t = Some y ->
    (y = IGNORE \/ y ∈ [5]) /\
    (y ≠ IGNORE -> exists w, [None; Some 0; Some 0; None] !! t = Some (Some w)).
Proof.
  split; [reflexivity|].
  apply (realign_labels_from_words [5] [None; Some 0; Some 0; None]).
  reflexivity.
Defined.

(** *** Contiguous maps: the word labels come back *)

Lemma labels_from_repeats (L : list Z) (w : Z) (n : nat) :
  labels_from L (Some w) (replicate n (Some w)) = Ok (replicate n IGNORE).
Proof.
  induction n as [|n IH]; [done|].
  cbn [replicate labels_from]. by rewrite token_label_repeat, IH.
Qed.

Lemma prev_after_replicate (prev x : option Z) (n : nat) :
  prev_after prev (replicate n x) = match n with O => prev | S _ => x end.
Proof.
  destruct n as [|n]; [done|].
  rewrite replicate_S_end. apply prev_after_snoc.
Qed.

Lemma filter_replicate_IGNORE (n : nat) :
  filter (fun y : Z => y ≠ -100) (replicate n IGNORE) = [].
Proof.
  induction n as [|n IH]; [done|].
  simpl. rewrite filter_cons, IH. unfold IGNORE.
  by rewrite decide_False by (intros H; by apply H).
Qed.

Lemma labels_from_contiguous (L : list Z) (segs : list (nat * nat)) (k : nat) :
  IGNORE ∉ L ->
  forall w prev,
    (w + length segs <= length L)%nat ->
    prev_below w prev ->
    exists A,
      labels_from L prev (contiguous_map w segs ++ replicate k None) = Ok A /\
      filter (fun y => y ≠ -100) A = take (length segs) (drop w L).
Proof.
  intros HL. induction segs as [|[g n] segs IH]; intros w prev Hlen Hprev.
  - exists (replicate k IGNORE). simpl.
    by rewrite labels_from_sentinels, filter_replicate_IGNORE.
  - simpl in Hlen.
    destruct (lookup_lt_is_Some_2 L w) as [x Hx]; [lia|].
    destruct (IH (S w) (Some (Z.of_nat w))) as (A' & HA' & Hfilter);
      [lia | simpl; lia |].
    exists (replicate g IGNORE ++ x :: replicate n IGNORE ++ A').
    split.
    + cbn [contiguous_map fst snd]. rewrite <- !app_assoc.
      rewrite labels_from_app, labels_from_sentinels. simpl.
      rewrite decide_True.
      2:{ rewrite prev_after_replicate. destruct g; [|done].
          destruct prev as [z|]; [|done]. simpl in Hprev.
          intros [= ->]. lia. }
      destruct (list_getitem_nonneg L (Z.of_nat w)) as (x' & Hx' & ->); [lia|].
      rewrite Nat2Z.id in Hx'. assert (x' = x) as -> by congruence.
      simpl. rewrite labels_from_app, labels_from_repeats. simpl.
      rewrite prev_after_replicate.
      replace (match n with O => Some (Z.of_nat w) | S _ => Some (Z.of_nat w) end)
        with (Some (Z.of_nat w)) by (by destruct n).
      by rewrite HA'.
    + rewrite filter_app, filter_replicate_IGNORE, filter_cons.
      rewrite decide_True.
      2:{ intros ->. apply HL. by eapply list_elem_of_lookup_2. }
      rewrite filter_app, filter_replicate_IGNORE, Hfilter. simpl.
      by rewrite (drop_S L x w Hx).
Qed.

Lemma realign_contiguous_filter (L : list Z) (segs : list (nat * nat))
    (k : nat) :
  IGNORE ∉ L ->
  (length segs <= length L)%nat ->
  exists A,
    realign L (contiguous_map 0 segs ++ replicate k None) = Ok A /\
    filter (fun y => y ≠ -100) A = take (length segs) L.
Proof.
  intros HL Hlen. rewrite realign_labels_from.
  destruct (labels_from_contiguous L segs k HL 0%nat None) as (A & HA & Hf);
    [lia | done |].
  exists A. by rewrite drop_0 in Hf.
Qed.

(** For the map of a contiguous tokenizer (the tokens of word 0, then those
    of word 1, and so on, with sentinels anywhere between words and at the
    end) and word labels other than [-100], the realigner returns, and
    dropping the [-100] entries of its output gives back the word labels, one
    per word of the map, in order. With a map cut short by truncation this is
    the labels of the words that are left. *)
Theorem realign_contiguous_round_trip (L : list Z) (segs : list (nat * nat))
    (k : nat) :
  IGNORE ∉ L ->
  (length segs <= length L)%nat ->
  exists A,
    realign L (contiguous_map 0 segs ++ replicate k None) = Ok A /\
    filter (fun y => y ≠ -100) A = take (length segs) L.
Proof. apply realign_contiguous_filter. Qed.

Lemma realign_contiguous_round_trip_witness :
  exists A,
    realign [3; 4; 5] (contiguous_map 0 [(1, 0); (0, 2)] ++ replicate 1 None)%nat
      = Ok A /\
    filter (fun y => y ≠ -100) A = take (length [(1, 0); (0, 2)]%nat) [3; 4; 5].
Proof.
  apply (realign_contiguous_round_trip [3; 4; 5] [(1, 0); (0, 2)]%nat 1).
  - intros H. repeat (apply elem_of_cons in H as [H|H]; [discriminate H|]).
    by apply elem_of_nil in H.
  - simpl. lia.
Defined.

(** What [compute_metrics] makes of these labels: the names of the word
    labels, one per word, and a [KeyError] exactly when [id2label] lacks one
    of them. *)
Theorem true_labels_of_realigned (id2label : gmap Z string) (L : list Z)
    (segs : list (nat * nat)) (k : nat) :
  IGNORE ∉ L ->
  (length segs <= length L)%nat ->
  exists A,
    realign L (contiguous_map 0 segs ++ replicate k None) = Ok A /\
    true_labels id2label [A] =
    names ← mapM (fun l => dict_getitem id2label l) (take (length segs) L);
    Ok [names].
Proof.
  intros HL Hlen.
  destruct (realign_contiguous_filter L segs k HL Hlen) as (A & HA & Hf).
  exists A. split; [done|].
  unfold true_labels. cbn [mapM]. rewrite Hf.
  by destruct (mapM _ (take (length segs) L)).
Qed.

Lemma true_labels_of_realigned_witness :
  exists A,
    realign [1; 0] (contiguous_map 0 [(1, 1); (0, 0)] ++ replicate 1 None)%nat
      = Ok A /\
    true_labels (<[0:="O"]> (<[1:="B-person"]> ∅)) [A] =
    names ← mapM (fun l => dict_getitem (<[0:="O"]> (<[1:="B-person"]> ∅)) l)
                 (take (length [(1, 1); (0, 0)]%nat) [1; 0]);
    Ok [names].
Proof.
  apply (true_labels_of_realigned (<[0:="O"]> (<[1:="B-person"]> ∅)) [1; 0]
           [(1, 1); (0, 0)]%nat 1).
  - intros H. repeat (apply elem_of_cons in H as [H|H]; [discriminate H|]).
    by apply elem_of_nil in H.
  - simpl. lia.
Defined.

(** ** More on [preprocess_dataset] *)

Lemma mapM_Raise_1 {A B : Type} (f : A -> result B) (l : list A) (e : exn) :
  mapM f l = Raise e -> exists x, x ∈ l /\ f x = Raise e.
Proof.
  induction l as [|x l IH]; simpl; [done|].
  destruct (f x) as [y|e'] eqn:Hx; simpl.
  - destruct (mapM f l) as [k|e'] eqn:Hl; simpl; [done|].
    intros [= ->]. destruct (IH eq_refl) as (x' & Hin & Hx').
    exists x'. split; [by right | done].
  - intros [= ->]. exists x. split; [by left | done].
Qed.

Lemma mapM_Raise_2 {A B : Type} (f : A -> result B) (l : list A) (x : A)
    (e : exn) :
  x ∈ l -> f x = Raise e -> exists e', mapM f l = Raise e'.
Proof.
  intros Hin Hx. induction Hin as [x l|x x' l _ IH]; simpl.
  - rewrite Hx. by eexists.
  - destruct (f x') as [y|e0]; simpl; [|by eexists].
    destruct (IH Hx) as [e' ->]. by eexists.
Qed.

Lemma enumerate_from_lookup_inv {A : Type} (xs : list A) (i k : nat)
    (p : nat * A) :
  enumerate_from i xs !! k = Some p -> p.1 = (i + k)%nat /\ xs !! k = Some p.2.
Proof.
  revert i k. induction xs as [|x xs IH]; intros i k; [done|].
  destruct k as [|k]; simpl.
  - intros [= <-]. simpl. split; [lia | done].
  - intros Hk. destruct (IH _ _ Hk) as [-> Hp]. split; [lia | done].
Qed.

Lemma enumerate_from_length {A : Type} (xs : list A) (i : nat) :
  length (enumerate_from i xs) = length xs.
Proof. revert i. induction xs as [|x xs IH]; intros i; simpl; auto. Qed.




(** The shape of what [preprocess_dataset] returns: one label list per
    example, each as long as the map of its example. *)
Theorem preprocess_dataset_shape (word_ids : nat -> list (option Z))
    (ner_tags out : list (list Z)) :
  preprocess_dataset word_ids ner_tags = Ok out ->
  length out = length ner_tags /\
  forall i A, out !! i = Some A -> length A = length (word_ids i).
Proof.
  rewrite preprocess_dataset_mapM. intros Hout%mapM_Ok_1. split.
  - apply Forall2_length in Hout. rewrite <- Hout.
    apply enumerate_from_length.
  - intros i A HA.
    destruct (Forall2_lookup_r _ _ _ _ _ Hout HA) as (p & Hp & Hreal).
    apply enumerate_from_lookup_inv in Hp as [Hp1 _]. simpl in Hp1.
    rewrite Hp1 in Hreal. by apply realign_length in Hreal.
Qed.

Lemma preprocess_dataset_shape_witness :
  length [[-100; 5; -100]; [-100; 3]] = length [[5]; [3]] /\
  forall i A,
    [[-100; 5; -100]; [-100; 3]] !! i = Some A ->
    length A =
    length (match i with
            | O => [None; Some 0; Some 0]
            | S _ => [None; Some 0]
            end).
Proof.
  apply (preprocess_dataset_shape
           (fun i => match i with
                     | O => [None; Some 0; Some 0]
                     | S _ => [None; Some 0]
                     end)
           [[5]; [3]] [[-100; 5; -100]; [-100; 3]]).
  reflexivity.
Defined.


(** ** More on [compute_metrics] *)

Lemma dict_getitem_Raise {V : Type} (d : gmap Z V) (k : Z) (e : exn) :
  dict_getitem d k = Raise e <-> e = KeyError /\ d !! k = None.
Proof.
  unfold dict_getitem. destruct (d !! k); split;
    first [done | intros [= <-]; done | intros [-> _]; done | intros [_ [=]]].
Qed.

Lemma example_labels_Raise (id2label : gmap Z string) (label : list Z)
    (e : exn) :
  mapM (fun l => dict_getitem id2label l) (filter (fun l => l ≠ -100) label)
    = Raise e ->
  e = KeyError /\ exists x, x ∈ label /\ x ≠ IGNORE /\ id2label !! x = None.
Proof.
  intros (x & [Hne Hin]%list_elem_of_filter & [-> Hx]%dict_getitem_Raise)
    %mapM_Raise_1.
  split; [done|]. by exists x.
Qed.

(** A true label that is neither [-100] nor a key of [id2label] makes
    [compute_metrics] raise [KeyError] before [seqeval.compute] is called,
    whatever the predictions are; the comprehension for the true labels
    raises in no other case and nothing else. *)
Theorem compute_metrics_unknown_label (id2label : gmap Z string)
    (labels : list (list Z)) :
  (forall e, true_labels id2label labels = Raise e -> e = KeyError) /\
  (true_labels id2label labels = Raise KeyError <->
   exists label x,
     label ∈ labels /\ x ∈ label /\ x ≠ IGNORE /\ id2label !! x = None) /\
  (forall (Probs Scores : Type) (np_argmax : Probs -> list (list Z))
          (seqeval_compute :
             list (list string) -> list (list string) -> result Scores)
          (probs : Probs),
      true_labels id2label labels = Raise KeyError ->
      compute_metrics np_argmax seqeval_compute id2label probs labels
      = Raise KeyError).
Proof.
  assert (forall e, true_labels id2label labels = Raise e ->
            e = KeyError /\
            exists label x,
              label ∈ labels /\ x ∈ label /\ x ≠ IGNORE /\
              id2label !! x = None) as Hraise.
  { intros e (label & Hin & (-> & x & Hx)%example_labels_Raise)%mapM_Raise_1.
    split; [done|]. by exists label, x. }
  split; [intros e He; by apply Hraise in He as [-> _]|].
  split; [split|].
  - intros He. by apply Hraise in He as [_ H].
  - intros (label & x & Hlabel & Hx & Hne & Hnone).
    destruct (mapM_Raise_2 (fun l => dict_getitem id2label l)
                (filter (fun l => l ≠ -100) label) x KeyError) as [e1 He1].
    { by apply list_elem_of_filter. }
    { by apply dict_getitem_Raise. }
    destruct (mapM_Raise_2
                (fun label =>
                   mapM (fun l => dict_getitem id2label l)
                        (filter (fun l => l ≠ -100) label))
                labels label e1 Hlabel He1) as [e2 He2].
    change (true_labels id2label labels = Raise e2) in He2.
    by destruct (Hraise e2 He2) as [<- _].
  - intros Probs Scores np_argmax seqeval_compute probs He.
    unfold compute_metrics. by rewrite He.
Qed.

Lemma compute_metrics_unknown_label_witness :
  true_labels (<[0:="O"]> ∅) [[-100; 0; 7]] = Raise KeyError.
Proof.
  apply (proj2 (proj1 (proj2 (compute_metrics_unknown_label
                                (<[0:="O"]> ∅) [[-100; 0; 7]])))).
  exists [-100; 0; 7], 7.
  split; [apply list_elem_of_here|].
  split; [do 2 apply list_elem_of_further; apply list_elem_of_here|].
  split; [discriminate | reflexivity].
Defined.

Lemma filter_zip_masked (p p' l : list Z) :
  length p = length p' ->
  (forall t x, l !! t = Some x -> x ≠ IGNORE -> p !! t = p' !! t) ->
  filter (fun q : Z * Z => q.2 ≠ -100) (zip p l) =
  filter (fun q : Z * Z => q.2 ≠ -100) (zip p' l).
Proof.
  revert p p'. induction l as [|x l IH]; intros [|y p] [|y' p'] Hlen Hagree;
    simpl in *; try done.
  rewrite !filter_cons. simpl.
  rewrite (IH p p'); [|lia|intros t z Ht Hz; apply (Hagree (S t) z Ht Hz)].
  destruct (decide (x ≠ -100)) as [Hx|Hx]; [|done].
  pose proof (Hagree 0%nat x eq_refl Hx) as Hy. simpl in Hy.
  by injection Hy as ->.
Qed.

(** The predictions at the positions whose true label is [-100] are never
    looked up: two prediction arrays of the same shape that agree wherever
    the true label is a real one give the same filtered predictions, or the
    same exception. *)
Theorem true_predictions_ignores_masked (id2label : gmap Z string)
    (predictions predictions' labels : list (list Z)) :
  Forall2 (fun p p' => length p = length p') predictions predictions' ->
  (forall i p p' l t x,
     predictions !! i = Some p -> predictions' !! i = Some p' ->
     labels !! i = Some l -> l !! t = Some x -> x ≠ IGNORE ->
     p !! t = p' !! t) ->
  true_predictions id2label predictions labels =
  true_predictions id2label predictions' labels.
Proof.
  intros Hshape. revert labels.
  induction Hshape as [|p p' ps ps' Hlen _ IH]; intros [|l ls] Hagree;
    try done.
  unfold true_predictions in *. cbn [zip zip_with mapM fst snd].
  rewrite (filter_zip_masked p p' l Hlen).
  2:{ intros t x Ht Hx. by apply (Hagree 0%nat p p' l t x). }
  rewrite (IH ls); [done|].
  intros i q q' l' t x Hq Hq' Hl'. by apply (Hagree (S i) q q' l' t x).
Qed.

Lemma true_predictions_ignores_masked_witness :
  true_predictions (<[0:="O"]> (<[1:="B-person"]> ∅))
    [[9; 1; 0]] [[-100; 1; 0]] =
  true_predictions (<[0:="O"]> (<[1:="B-person"]> ∅))
    [[0; 1; 0]] [[-100; 1; 0]].
Proof.
  apply (true_predictions_ignores_masked (<[0:="O"]> (<[1:="B-person"]> ∅))
           [[9; 1; 0]] [[0; 1; 0]] [[-100; 1; 0]]).
  - repeat constructor.
  - intros [|[|i]] p p' l t x Hp Hp' Hl; try discriminate Hp.
    injection Hp as <-. injection Hp' as <-. injection Hl as <-.
    destruct t as [|t]; [|done].
    intros [= <-] Hx. by destruct Hx.
Defined.

Lemma filter_zip_length (p l : list Z) :
  length (filter (fun q : Z * Z => q.2 ≠ -100) (zip p l)) =
  length (filter (fun x : Z => x ≠ -100) (take (length p) l)).
Proof.
  revert p. induction l as [|x l IH]; intros [|y p]; simpl; try done.
  rewrite !filter_cons. simpl.
  destruct (decide (x ≠ -100)); simpl; by rewrite IH.
Qed.

(** When a row of predictions is shorter than its row of true labels,
    [zip] drops the labels past its end without an error: the filtered
    predictions are then shorter than the filtered true labels, by the number
    of real labels past the end of the predictions. *)
Theorem compute_metrics_short_prediction (id2label : gmap Z string)
    (predictions labels : list (list Z)) (tp tl : list (list string))
    (i : nat) (p l : list Z) :
  true_predictions id2label predictions labels = Ok tp ->
  true_labels id2label labels = Ok tl ->
  predictions !! i = Some p ->
  labels !! i = Some l ->
  exists tpi tli,
    tp !! i = Some tpi /\ tl !! i = Some tli /\
    length tli =
    (length tpi +
     length (filter (fun x : Z => x ≠ (-100)%Z) (drop (length p) l)))%nat.
Proof.
  intros Htp%mapM_Ok_1 Htl%mapM_Ok_1 Hp Hl.
  destruct (Forall2_lookup_l _ _ _ i (p, l) Htp) as (tpi & Htpi & Hmap_p).
  { apply lookup_zip_with_Some. by exists p, l. }
  destruct (Forall2_lookup_l _ _ _ i l Htl Hl) as (tli & Htli & Hmap_l).
  exists tpi, tli. split; [done|]. split; [done|].
  apply mapM_Ok_1, Forall2_length in Hmap_p, Hmap_l. simpl in Hmap_p.
  rewrite <- Hmap_p, <- Hmap_l, filter_zip_length.
  rewrite <- (take_drop (length p) l) at 1.
  by rewrite filter_app, length_app.
Qed.

Lemma compute_metrics_short_prediction_witness :
  exists tpi tli,
    [["B-person"]] !! 0%nat = Some tpi /\
    [["B-person"; "O"]] !! 0%nat = Some tli /\
    length tli =
    (length tpi +
     length (filter (fun x : Z => x ≠ (-100)%Z)
                    (drop (length [0; 1]%Z) [-100; 1; -100; 0]%Z)))%nat.
Proof.
  apply (compute_metrics_short_prediction
           (<[0:="O"]> (<[1:="B-person"]> ∅))
           [[0; 1]] [[-100; 1; -100; 0]]
           [["B-person"]] [["B-person"; "O"]] 0 [0; 1] [-100; 1; -100; 0]);
    reflexivity.
Defined.

(** ** The label vocabulary *)

Section odict.

Context {K V : Type} `{EqDecision K}.

Lemma odict_getitem_setitem (d : list (K * V)) (k k' : K) (v : V) :
  odict_getitem (odict_setitem k v d) k' =
  if decide (k = k') then Ok v else odict_getitem d k'.
Proof.
  induction d as [|[k0 v0] d IH]; simpl.
  - destruct (decide (k = k')); done.
  - destruct (decide (k0 = k)) as [->|Hne]; simpl.
    + destruct (decide (k = k')); done.
    + rewrite IH. destruct (decide (k0 = k')) as [->|]; [|done].
      by rewrite decide_False.
Qed.

Lemma odict_setitem_fresh (d : list (K * V)) (k : K) (v : V) :
  k ∉ d.*1 -> odict_setitem k v d = d ++ [(k, v)].
Proof.
  induction d as [|[k0 v0] d IH]; [done|]; simpl.
  intros [Hne Hd]%not_elem_of_cons.
  rewrite decide_False by done. by rewrite IH.
Qed.

Lemma dict_comprehension_snoc (items : list (K * V)) (kv : K * V) :
  dict_comprehension (items ++ [kv]) =
  odict_setitem kv.1 kv.2 (dict_comprehension items).
Proof. unfold dict_comprehension. by rewrite foldl_app. Qed.

Lemma dict_comprehension_NoDup (items : list (K * V)) :
  NoDup items.*1 -> dict_comprehension items = items.
Proof.
  induction items as [|[k v] items IH] using rev_ind; [done|].
  rewrite fmap_app, NoDup_app. simpl. intros (Hitems & Hfresh & _).
  rewrite dict_comprehension_snoc, IH by done. simpl.
  apply odict_setitem_fresh. intros Hk. apply (Hfresh k Hk). by left.
Qed.

End odict.

Lemma dict_getitem_odict_view {V : Type} (d : list (Z * V)) (k : Z) :
  dict_getitem (odict_view d) k = odict_getitem d k.
Proof.
  unfold dict_getitem, odict_view.
  induction d as [|[k0 v0] d IH]; simpl; [done|].
  rewrite lookup_insert. destruct (decide (k0 = k)); done.
Qed.

Lemma enumerate_from_snoc {A : Type} (xs : list A) (x : A) (i : nat) :
  enumerate_from i (xs ++ [x]) =
  enumerate_from i xs ++ [((i + length xs)%nat, x)].
Proof.
  revert i. induction xs as [|y xs IH]; intros i; simpl.
  - by rewrite Nat.add_0_r.
  - rewrite IH.
    by replace (S i + length xs)%nat with (i + S (length xs))%nat by lia.
Qed.

Lemma enumerate_from_keys {A : Type} (xs : list A) (i : nat) :
  (map (fun kv : nat * A => (Z.of_nat kv.1, kv.2)) (enumerate_from i xs)).*1
  = Z.of_nat <$> seq i (length xs).
Proof.
  revert i. induction xs as [|x xs IH]; intros i; simpl; [done|].
  by rewrite IH.
Qed.

(** The items of [id2label], in order: [(0, names[0])], [(1, names[1])], ... *)
Lemma id2label_items (names : list string) :
  Vocabulary.id2label names =
  map (fun kv : nat * string => (Z.of_nat kv.1, kv.2)) (enumerate names).
Proof.
  apply dict_comprehension_NoDup. unfold enumerate.
  rewrite enumerate_from_keys.
  apply (NoDup_fmap_2 _), NoDup_seq.
Qed.

Lemma id2label_snoc (names : list string) (x : string) :
  Vocabulary.id2label (names ++ [x]) =
  Vocabulary.id2label names ++ [(Z.of_nat (length names), x)].
Proof.
  rewrite !id2label_items. unfold enumerate.
  by rewrite enumerate_from_snoc, map_app.
Qed.

Lemma id2label_getitem (names : list string) (k : Z) :
  odict_getitem (Vocabulary.id2label names) k =
  if decide (0 <= k) then
    match names !! Z.to_nat k with
    | Some v => Ok v
    | None => Raise KeyError
    end
  else Raise KeyError.
Proof.
  induction names as [|x names IH] using rev_ind.
  - simpl. by destruct (decide (0 <= k)).
  - rewrite id2label_snoc.
    rewrite <- (odict_setitem_fresh (Vocabulary.id2label names)).
    2:{ rewrite id2label_items. unfold enumerate. rewrite enumerate_from_keys.
        intros (j & Hj & Hin%elem_of_seq)%list_elem_of_fmap. lia. }
    rewrite odict_getitem_setitem, IH.
    destruct (decide (Z.of_nat (length names) = k)) as [<-|Hne].
    + rewrite decide_True by lia. rewrite Nat2Z.id.
      by rewrite list_lookup_middle.
    + destruct (decide (0 <= k)); [|done].
      destruct (decide (Z.to_nat k < length names)%nat) as [Hlt|Hge].
      * by rewrite lookup_app_l.
      * rewrite lookup_ge_None_2 by lia.
        by rewrite lookup_ge_None_2 by (rewrite length_app; simpl; lia).
Qed.

Lemma label2id_snoc (names : list string) (x : string) (v : string) :
  odict_getitem (Vocabulary.label2id (names ++ [x])) v =
  if decide (x = v) then Ok (Z.of_nat (length names))
  else odict_getitem (Vocabulary.label2id names) v.
Proof.
  unfold Vocabulary.label2id.
  rewrite id2label_snoc, map_app. simpl.
  by rewrite dict_comprehension_snoc, odict_getitem_setitem.
Qed.

Lemma label2id_last (names : list string) (v : string) (i : nat) :
  names !! i = Some v ->
  (forall j, (i < j)%nat -> names !! j ≠ Some v) ->
  odict_getitem (Vocabulary.label2id names) v = Ok (Z.of_nat i).
Proof.
  revert i. induction names as [|x names IH] using rev_ind; intros i; [done|].
  intros Hi Hlast. rewrite label2id_snoc.
  destruct (decide (x = v)) as [->|Hne].
  - destruct (decide (i = length names)) as [->|Hi']; [done|].
    exfalso. apply (Hlast (length names)).
    + apply lookup_lt_Some in Hi. rewrite length_app in Hi. simpl in Hi. lia.
    + by rewrite list_lookup_middle.
  - assert (i < length names)%nat as Hlt.
    { destruct (decide (i = length names)) as [->|Hi'].
      - rewrite list_lookup_middle in Hi by done. congruence.
      - apply lookup_lt_Some in Hi. rewrite length_app in Hi. simpl in Hi. lia. }
    rewrite lookup_app_l in Hi by done.
    apply IH; [done|]. intros j Hj Hv. apply (Hlast j Hj).
    rewrite lookup_app_l; [done|]. by eapply lookup_lt_Some.
Qed.

Lemma label2id_missing (names : list string) (v : string) :
  v ∉ names -> odict_getitem (Vocabulary.label2id names) v = Raise KeyError.
Proof.
  induction names as [|x names IH] using rev_ind; [done|].
  rewrite not_elem_of_app, not_elem_of_cons. intros (Hnames & Hne & _).
  rewrite label2id_snoc, decide_False by done. by apply IH.
Qed.

Lemma last_occurrence (names : list string) (v : string) :
  v ∈ names ->
  exists i, names !! i = Some v /\
            forall j, (i < j)%nat -> names !! j ≠ Some v.
Proof.
  induction names as [|x names IH] using rev_ind.
  - by intros ?%elem_of_nil.
  - intros Hin. destruct (decide (x = v)) as [->|Hne].
    + exists (length names). split; [by rewrite list_lookup_middle|].
      intros j Hj. rewrite lookup_ge_None_2; [done|].
      rewrite length_app. simpl. lia.
    + apply elem_of_app in Hin as [Hin|Hin%list_elem_of_singleton]; [|done].
      destruct (IH Hin) as (i & Hi & Hlast).
      exists i. split.
      * rewrite lookup_app_l; [done|]. by eapply lookup_lt_Some.
      * intros j Hj Hv.
        destruct (decide (j < length names)%nat) as [Hlt|Hge].
        -- rewrite lookup_app_l in Hv by done. by apply (Hlast j Hj).
        -- destruct (decide (j = length names)) as [->|Hj'].
           ++ rewrite list_lookup_middle in Hv by done. congruence.
           ++ rewrite lookup_ge_None_2 in Hv; [done|].
              rewrite length_app. simpl. lia.
Qed.

(** [id2label[k]] is [names[k]] for [0 <= k < len(names)] and a [KeyError]
    for every other [k]: unlike a list subscript the dict takes no negative
    id, and [-100] is never a key. As many items as names. *)
Theorem id2label_lookup (names : list string) (k : Z) :
  dict_getitem (odict_view (Vocabulary.id2label names)) k =
    (if decide (0 <= k < Z.of_nat (length names)) then
       match names !! Z.to_nat k with
       | Some v => Ok v
       | None => Raise KeyError
       end
     else Raise KeyError) /\
  (0 <= k < Z.of_nat (length names) ->
   exists v, names !! Z.to_nat k = Some v /\
             dict_getitem (odict_view (Vocabulary.id2label names)) k = Ok v) /\
  dict_getitem (odict_view (Vocabulary.id2label names)) IGNORE
    = Raise KeyError /\
  length (Vocabulary.id2label names) = length names.
Proof.
  rewrite !dict_getitem_odict_view, !id2label_getitem.
  split; [|split; [|split]].
  - destruct (decide (0 <= k)) as [Hk|Hk].
    + destruct (decide (0 <= k < Z.of_nat (length names))) as [Hlt|Hge]; [done|].
      by rewrite lookup_ge_None_2 by lia.
    + by rewrite decide_False by lia.
  - intros Hk. rewrite decide_True by lia.
    destruct (lookup_lt_is_Some_2 names (Z.to_nat k)) as [v Hv]; [lia|].
    exists v. by rewrite Hv.
  - reflexivity.
  - rewrite id2label_items, length_map. apply enumerate_from_length.
Qed.

Lemma id2label_lookup_witness :
  exists v, ["O"; "B-person"] !! Z.to_nat 1 = Some v /\
            dict_getitem (odict_view (Vocabulary.id2label ["O"; "B-person"])) 1
            = Ok v.
Proof.
  apply (proj1 (proj2 (id2label_lookup ["O"; "B-person"] 1))).
  simpl. lia.
Defined.

(** From id to name and back: with pairwise different names,
    [label2id[id2label[k]]] is [k] for every [k] of [[0, len(names))]. *)
Theorem label2id_id2label_round_trip (names : list string) (k : Z) :
  NoDup names ->
  0 <= k < Z.of_nat (length names) ->
  (v ← odict_getitem (Vocabulary.id2label names) k;
   odict_getitem (Vocabulary.label2id names) v) = Ok k.
Proof.
  intros Hnd Hk. rewrite id2label_getitem, decide_True by lia.
  destruct (lookup_lt_is_Some_2 names (Z.to_nat k)) as [v Hv]; [lia|].
  rewrite Hv. simpl.
  rewrite (label2id_last names v (Z.to_nat k) Hv).
  - f_equal. lia.
  - intros j Hj Hv'.
    pose proof (NoDup_lookup _ _ _ _ Hnd Hv Hv'). lia.
Qed.

Lemma label2id_id2label_round_trip_witness :
  (v ← odict_getitem (Vocabulary.id2label ["O"; "B-person"; "I-person"]) 2;
   odict_getitem (Vocabulary.label2id ["O"; "B-person"; "I-person"]) v)
  = Ok 2.
Proof.
  apply (label2id_id2label_round_trip ["O"; "B-person"; "I-person"] 2).
  - repeat (apply NoDup_cons_2;
            [intros H;
             repeat (apply elem_of_cons in H as [H|H]; [discriminate H|]);
             by apply elem_of_nil in H|]).
    apply NoDup_nil_2.
  - simpl. lia.
Defined.

(** From name to id and back: for every name of the list, with or without
    repeated names, [id2label[label2id[v]]] is [v]; [label2id[v]] is the last
    position of [v] in the list, later items of the comprehension replacing
    earlier ones. A string that is no name is a [KeyError]. *)
Theorem id2label_label2id_round_trip (names : list string) (v : string) :
  (v ∈ names ->
   exists i,
     odict_getitem (Vocabulary.label2id names) v = Ok (Z.of_nat i) /\
     names !! i = Some v /\
     (forall j, (i < j)%nat -> names !! j ≠ Some v) /\
     (k ← odict_getitem (Vocabulary.label2id names) v;
      odict_getitem (Vocabulary.id2label names) k) = Ok v) /\
  (v ∉ names ->
   odict_getitem (Vocabulary.label2id names) v = Raise KeyError).
Proof.
  split; [|apply label2id_missing].
  intros (i & Hi & Hlast)%last_occurrence.
  pose proof (label2id_last names v i Hi Hlast) as Hget.
  exists i. repeat split; try done.
  rewrite Hget. simpl. rewrite id2label_getitem, decide_True by lia.
  by rewrite Nat2Z.id, Hi.
Qed.

Lemma id2label_label2id_round_trip_witness :
  exists i,
    odict_getitem (Vocabulary.label2id ["O"; "B"; "O"]) "O" = Ok (Z.of_nat i) /\
    ["O"; "B"; "O"] !! i = Some "O" /\
    (forall j, (i < j)%nat -> ["O"; "B"; "O"] !! j ≠ Some "O") /\
    (k ← odict_getitem (Vocabulary.label2id ["O"; "B"; "O"]) "O";
     odict_getitem (Vocabulary.id2label ["O"; "B"; "O"]) k) = Ok "O".
Proof.
  apply (proj1 (id2label_label2id_round_trip ["O"; "B"; "O"] "O")).
  apply list_elem_of_here.
Defined.

(** With [id2label] built from the names, [compute_metrics] raises no
    [KeyError] and reaches [seqeval.compute] whenever the true labels are
    [-100] or ids of [[0, len(names))] and the predictions are ids of
    [[0, len(names))]. *)
Theorem compute_metrics_with_vocabulary (names : list string)
    (predictions labels : list (list Z)) :
  Forall (Forall (fun x => x = IGNORE \/ 0 <= x < Z.of_nat (length names)))
         labels ->
  Forall (Forall (fun y => 0 <= y < Z.of_nat (length names))) predictions ->
  exists tp tl,
    true_predictions (odict_view (Vocabulary.id2label names)) predictions labels
      = Ok tp /\
    true_labels (odict_view (Vocabulary.id2label names)) labels = Ok tl /\
    forall (Probs Scores : Type) (np_argmax : Probs -> list (list Z))
           (seqeval_compute :
              list (list string) -> list (list string) -> result Scores)
           (probs : Probs),
      np_argmax probs = predictions ->
      compute_metrics np_argmax seqeval_compute
        (odict_view (Vocabulary.id2label names)) probs labels
      = seqeval_compute tp tl.
Proof.
  intros Hlabels Hpreds.
  assert (forall x, 0 <= x < Z.of_nat (length names) ->
            is_Some (odict_view (Vocabulary.id2label names) !! x)) as Hkey.
  { intros x Hx.
    destruct (lookup_lt_is_Some_2 names (Z.to_nat x)) as [v Hv]; [lia|].
    exists v. apply dict_getitem_Ok.
    rewrite dict_getitem_odict_view, id2label_getitem, decide_True by lia.
    by rewrite Hv. }
  destruct (true_predictions_total (odict_view (Vocabulary.id2label names))
              predictions labels) as [tp Htp].
  { eapply Forall_impl; [exact Hpreds|]. intros p Hp.
    eapply Forall_impl; [exact Hp|]. intros y Hy. by apply Hkey. }
  destruct (true_labels_total (odict_view (Vocabulary.id2label names)) labels)
    as [tl Htl].
  { eapply Forall_impl; [exact Hlabels|]. intros l Hl.
    eapply Forall_impl; [exact Hl|]. intros x [->|Hx] Hne; [done|].
    by apply Hkey. }
  exists tp, tl. split; [done|]. split; [done|].
  intros Probs Scores np_argmax seqeval_compute probs Hargmax.
  unfold compute_metrics. by rewrite Hargmax, Htl, Htp.
Qed.

Lemma compute_metrics_with_vocabulary_witness :
  exists tp tl,
    true_predictions (odict_view (Vocabulary.id2label ["O"; "B-person"]))
      [[0; 1; 1]] [[-100; 1; 0]] = Ok tp /\
    true_labels (odict_view (Vocabulary.id2label ["O"; "B-person"]))
      [[-100; 1; 0]] = Ok tl /\
    forall (Probs Scores : Type) (np_argmax : Probs -> list (list Z))
           (seqeval_compute :
              list (list string) -> list (list string) -> result Scores)
           (probs : Probs),
      np_argmax probs = [[0; 1; 1]] ->
      compute_metrics np_argmax seqeval_compute
        (odict_view (Vocabulary.id2label ["O"; "B-person"])) probs
        [[-100; 1; 0]]
      = seqeval_compute tp tl.
Proof.
  apply (compute_metrics_with_vocabulary ["O"; "B-person"]
           [[0; 1; 1]] [[-100; 1; 0]]).
  - repeat first
      [ apply Forall_nil_2
      | apply Forall_cons_2;
        [repeat first
           [ apply Forall_nil_2
           | apply Forall_cons_2;
             [first [by left | right; simpl; lia]|] ]|] ].
  - repeat first
      [ apply Forall_nil_2
      | apply Forall_cons_2;
        [repeat first
           [ apply Forall_nil_2 | apply Forall_cons_2; [simpl; lia|] ]|] ].
Defined.

(** ** Inference, method 2 *)

(** The names of the first sequence only: one name per token id of
    [predictions_label_ids[0]], the name [label_map] has for it. An empty
    batch is an [IndexError], a token id that is no key of [label_map] a
    [KeyError]; the sequences after the first play no part. *)
Theorem inference_predictions_first_sequence (label_map : gmap Z string)
    (predictions_label_ids : list (list Z)) :
  (predictions_label_ids = [] ->
   inference_predictions label_map predictions_label_ids = Raise IndexError) /\
  (forall row rest,
     predictions_label_ids = row :: rest ->
     inference_predictions label_map predictions_label_ids =
       inference_predictions label_map [row] /\
     (forall names,
        inference_predictions label_map predictions_label_ids = Ok names <->
        Forall2 (fun i s => label_map !! i = Some s) row names) /\
     (inference_predictions label_map predictions_label_ids = Raise KeyError <->
      exists i, i ∈ row /\ label_map !! i = None) /\
     inference_predictions label_map predictions_label_ids ≠ Raise IndexError).
Proof.
  split; [by intros ->|].
  intros row rest ->.
  change (inference_predictions label_map (row :: rest))
    with (mapM (fun i => dict_getitem label_map i) row).
  assert (forall e, mapM (fun i => dict_getitem label_map i) row = Raise e ->
            e = KeyError /\ exists i, i ∈ row /\ label_map !! i = None)
    as Hraise.
  { intros e (i & Hi & [-> Hnone]%dict_getitem_Raise)%mapM_Raise_1.
    split; [done|]. by exists i. }
  split; [done|]. split; [|split].
  - intros names. rewrite mapM_Ok. split.
    + intros H. eapply Forall2_impl; [exact H|].
      intros i s. apply dict_getitem_Ok.
    + intros H. eapply Forall2_impl; [exact H|].
      intros i s. apply dict_getitem_Ok.
  - split; [intros He; by apply Hraise in He as [_ H]|].
    intros (i & Hi & Hnone).
    destruct (mapM_Raise_2 (fun i => dict_getitem label_map i) row i KeyError)
      as [e He]; [done | by apply dict_getitem_Raise |].
    by destruct (Hraise e He) as [<- _].
  - intros He. by apply Hraise in He as [[=] _].
Qed.

Lemma inference_predictions_first_sequence_witness :
  inference_predictions (<[0:="O"]> (<[1:="B-person"]> ∅)) [[0; 1]; [7]] =
    inference_predictions (<[0:="O"]> (<[1:="B-person"]> ∅)) [[0; 1]] /\
  (forall names,
     inference_predictions (<[0:="O"]> (<[1:="B-person"]> ∅)) [[0; 1]; [7]]
       = Ok names <->
     Forall2 (fun i s => (<[0:="O"]> (<[1:="B-person"]> ∅) : gmap Z string) !! i
                         = Some s) [0; 1] names) /\
  (inference_predictions (<[0:="O"]> (<[1:="B-person"]> ∅)) [[0; 1]; [7]]
     = Raise KeyError <->
   exists i, i ∈ [0; 1] /\
             (<[0:="O"]> (<[1:="B-person"]> ∅) : gmap Z string) !! i = None) /\
  inference_predictions (<[0:="O"]> (<[1:="B-person"]> ∅)) [[0; 1]; [7]]
    ≠ Raise IndexError.
Proof.
  apply (proj2 (inference_predictions_first_sequence
                  (<[0:="O"]> (<[1:="B-person"]> ∅)) [[0; 1]; [7]])
           [0; 1] [[7]]).
  reflexivity.
Defined.

(** ** Which word labels the realigner reads *)

Lemma labels_from_ext (L L' : list Z) (prev : option Z) (M : list (option Z)) :
  Forall (fun x => match x with
                   | None => True
                   | Some w => list_getitem L w = list_getitem L' w
                   end) M ->
  labels_from L prev M = labels_from L' prev M.
Proof.
  intros HM. revert prev. induction HM as [|x M Hx _ IH]; intros prev; [done|].
  simpl. rewrite IH.
  destruct x as [w|]; simpl; [|done].
  destruct (decide (prev ≠ Some w)); [|done]. by rewrite Hx.
Qed.

(** The realigner reads the word labels through the word indices of the map
    only: two label sequences that give the same answer to the subscript for
    every word index of the map give the same output, or the same exception.
    So the labels of the words that truncation removed from the map play no
    part. *)
Theorem realign_reads_mapped_words_only (L L' : list Z) (M : list (option Z)) :
  (forall t w, M !! t = Some (Some w) -> list_getitem L w = list_getitem L' w) ->
  realign L M = realign L' M.
Proof.
  intros Hagree. rewrite !realign_labels_from. apply labels_from_ext.
  apply Forall_lookup. intros t [w|] Ht; [|done]. by apply (Hagree t w).
Qed.

Lemma realign_reads_mapped_words_only_witness :
  realign [3; 4; 5] [None; Some 0; Some 1; Some 1] =
  realign [3; 4; 9] [None; Some 0; Some 1; Some 1].
Proof.
  apply (realign_reads_mapped_words_only [3; 4; 5] [3; 4; 9]
           [None; Some 0; Some 1; Some 1]).
  intros [|[|[|[|t]]]] w Ht; try discriminate Ht; by injection Ht as <-.
Defined.
